(** * Shallow embedding of [colossalai/zero/sharded_model/_zero3_utils.py]

    The helpers of the sharded-model utilities are embedded function by
    function.  Python integers are [Z], Python lists are [list], raised
    exceptions are values of [exn], and the helpers that mutate an object of
    their caller (a storage, a state dict) thread it explicitly and give it
    back also when they raise. *)

From Stdlib Require Import String Ascii.
From Stdlib Require Import ZArith List Bool Lia.
From Stdlib Require Import Permutation.
Import ListNotations.

Local Open Scope Z_scope.

(** ** Exceptions and results *)

(** The exceptions the module, the integer division, the list and dict
    operations and the torch calls can raise. *)
Inductive exn : Type :=
| AssertionError
| ValueError
| KeyError
| IndexError
| RuntimeError
| OverflowError
| ZeroDivisionError.

(** The outcome of a call that touches no caller object: a value or a raised
    exception. *)
Inductive result (A : Type) : Type :=
| Ok (a : A)
| Raise (e : exn).

Arguments Ok {A} a.
Arguments Raise {A} e.

Definition bind {A B : Type} (r : result A) (k : A -> result B) : result B :=
  match r with
  | Ok a => k a
  | Raise e => Raise e
  end.

Notation "x <- r ;; k" := (bind r (fun x => k))
  (at level 61, r at next level, right associativity).

Module Predivide.

(** ** get_gradient_predivide_factor *)

(** A finite binary64 value, [mantissa * 2^exponent]. *)
Record float : Type := mkFloat {
  mantissa : Z;
  exponent : Z
}.

(** [floor(log2(n / d))] for positive [n] and [d]. *)
Definition quotient_log2 (n d : Z) : Z :=
  let e := Z.log2 n - Z.log2 d in
  if d * 2 ^ Z.max 0 e <=? n * 2 ^ Z.max 0 (- e) then e else e - 1.

(** [n / d] rounded to the nearest integer, a tie to the even one. *)
Definition round_half_even (n d : Z) : Z :=
  let q := n / d in
  let r := n mod d in
  if 2 * r <? d then q
  else if d <? 2 * r then q + 1
  else if Z.even q then q else q + 1.

(** Python's [a / b] on integers: the quotient correctly rounded to binary64
    (53 significant bits, results below 2^-1022 on the grid of 2^-1074), a
    ZeroDivisionError for [b = 0] and an OverflowError when the rounded
    result does not fit (it reaches 2^1024). *)
Definition true_div (a b : Z) : result float :=
  if b =? 0 then Raise ZeroDivisionError
  else if a =? 0 then Ok (mkFloat 0 0)
  else
    let n := Z.abs a in
    let d := Z.abs b in
    let shift := Z.max (quotient_log2 n d - 52) (- 1074) in
    let m := round_half_even (n * 2 ^ Z.max 0 (- shift)) (d * 2 ^ Z.max 0 shift) in
    if 2 ^ 1024 <=? m * 2 ^ Z.max 0 shift then Raise OverflowError
    else Ok (mkFloat (Z.sgn a * Z.sgn b * m) shift).

(** [float(n)]: the integer correctly rounded, or an OverflowError. *)
Definition float_of_int (n : Z) : result float := true_div n 1.

(** [x > n] for a float [x] and an integer [n]; Python compares the two
    exactly. *)
Definition float_gt_int (x : float) (n : Z) : bool :=
  n * 2 ^ Z.max 0 (- exponent x) <? mantissa x * 2 ^ Z.max 0 (exponent x).

(** The float [x] is the integer [n]. *)
Definition float_is_int (x : float) (n : Z) : Prop :=
  n * 2 ^ Z.max 0 (- exponent x) = mantissa x * 2 ^ Z.max 0 (exponent x).

(** The condition of the [while] at line 11; the division is evaluated only
    when the remainder is zero. *)
Definition predivide_continue (world_size factor : Z) : result bool :=
  if world_size mod factor =? 0
  then q <- true_div world_size factor ;; Ok (float_gt_int q factor)
  else Ok false.

(** The [while] loop of lines 11-12, run for at most [fuel] tests of its
    condition; [None] when the fuel runs out before the loop ends. *)
Fixpoint predivide_loop (fuel : nat) (world_size factor : Z) : option (result Z) :=
  match fuel with
  | O => None
  | S fuel' =>
      match predivide_continue world_size factor with
      | Raise e => Some (Raise e)
      | Ok true => predivide_loop fuel' world_size (factor * 2)
      | Ok false => Some (Ok factor)
      end
  end.

(** Lines 9-13. *)
Definition get_gradient_predivide_factor (world_size : Z) : option (result float) :=
  match predivide_loop (Z.to_nat (Z.log2 world_size) + 2) world_size 1 with
  | None => None
  | Some (Raise e) => Some (Raise e)
  | Some (Ok factor) => Some (float_of_int factor)
  end.

(** A power of two, [2^k] for a natural [k]. *)
Definition is_pow2 (p : Z) : Prop := exists k : nat, p = 2 ^ Z.of_nat k.

(** [f] is the largest power of two that divides [world_size] and is at most
    its square root. *)
Definition largest_pow2_divisor_le_sqrt (world_size f : Z) : Prop :=
  is_pow2 f /\ (f | world_size) /\ f * f <= world_size /\
  forall g, is_pow2 g -> (g | world_size) -> g * g <= world_size -> g <= f.

(** [f] is the largest power of two that divides [world_size] and is strictly
    below its square root. *)
Definition largest_pow2_divisor_lt_sqrt (world_size f : Z) : Prop :=
  is_pow2 f /\ (f | world_size) /\ f * f < world_size /\
  forall g, is_pow2 g -> (g | world_size) -> g * g < world_size -> g <= f.

(** *** The division where it is exact, and where it rounds *)

Lemma round_half_even_exact (m d : Z) : 0 < d -> round_half_even (m * d) d = m.
Proof.
  intros Hd. unfold round_half_even.
  rewrite Z.div_mul, Z.mod_mul by lia.
  replace (2 * 0 <? d) with true by (symmetry; apply Z.ltb_lt; lia).
  reflexivity.
Qed.

Lemma round_half_even_bounds (n d : Z) :
  n / d <= round_half_even n d <= n / d + 1.
Proof.
  unfold round_half_even.
  destruct (2 * (n mod d) <? d); [lia|].
  destruct (d <? 2 * (n mod d)); [lia|].
  destruct (Z.even (n / d)); lia.
Qed.

Lemma quotient_log2_pow2 (n k : Z) :
  0 < n -> 0 <= k -> 2 ^ k <= n -> quotient_log2 n (2 ^ k) = Z.log2 n - k.
Proof.
  intros Hn Hk Hle. unfold quotient_log2.
  rewrite Z.log2_pow2 by exact Hk.
  assert (Hlog : k <= Z.log2 n) by (apply Z.log2_le_pow2; assumption).
  rewrite !Z.max_r, Z.max_l by lia.
  rewrite <- Z.pow_add_r by lia.
  replace (k + (Z.log2 n - k)) with (Z.log2 n) by lia.
  change (2 ^ 0) with 1. rewrite Z.mul_1_r.
  replace (2 ^ Z.log2 n <=? n) with true; [reflexivity|].
  symmetry. apply Z.leb_le. apply Z.log2_spec. exact Hn.
Qed.

(** The quotient of [q * 2^k] by [2^k], for [q] below 2^53 in absolute
    value, is the binary64 [q]: no rounding takes place. *)
Lemma true_div_exact (q k : Z) :
  q <> 0 -> Z.abs q < 2 ^ 53 -> 0 <= k ->
  true_div (q * 2 ^ k) (2 ^ k)
  = Ok (mkFloat (q * 2 ^ (52 - Z.log2 (Z.abs q))) (Z.log2 (Z.abs q) - 52)).
Proof.
  intros Hq Hsmall Hk.
  assert (Hpow : 0 < 2 ^ k) by (apply Z.pow_pos_nonneg; lia).
  assert (Hn : 0 < Z.abs q) by lia.
  assert (Hlog52 : Z.log2 (Z.abs q) < 53) by (apply Z.log2_lt_pow2; assumption).
  pose proof (Z.log2_nonneg (Z.abs q)) as Hlog0.
  unfold true_div.
  replace (2 ^ k =? 0) with false by (symmetry; apply Z.eqb_neq; lia).
  replace (q * 2 ^ k =? 0) with false by (symmetry; apply Z.eqb_neq; nia).
  rewrite Z.abs_mul, (Z.abs_eq (2 ^ k)) by lia.
  rewrite quotient_log2_pow2 by nia.
  rewrite Z.log2_mul_pow2 by lia.
  replace (k + Z.log2 (Z.abs q) - k) with (Z.log2 (Z.abs q)) by lia.
  set (lq := Z.log2 (Z.abs q)) in *.
  rewrite (Z.max_l (lq - 52)) by lia.
  rewrite (Z.max_r 0 (- (lq - 52))), (Z.max_l 0 (lq - 52)) by lia.
  change (2 ^ 0) with 1. rewrite !Z.mul_1_r.
  replace (Z.abs q * 2 ^ k * 2 ^ (- (lq - 52)))
    with (Z.abs q * 2 ^ (- (lq - 52)) * 2 ^ k) by ring.
  rewrite round_half_even_exact by exact Hpow.
  replace (- (lq - 52)) with (52 - lq) by lia.
  assert (Hscale : 0 < 2 ^ (52 - lq) <= 2 ^ 52).
  { split; [apply Z.pow_pos_nonneg; lia | apply Z.pow_le_mono_r; lia]. }
  assert (Hbig : Z.abs q * 2 ^ (52 - lq) < 2 ^ 1024).
  { apply Z.lt_trans with (2 ^ 53 * 2 ^ 52); [nia | reflexivity]. }
  replace (2 ^ 1024 <=? Z.abs q * 2 ^ (52 - lq)) with false
    by (symmetry; apply Z.leb_gt; exact Hbig).
  do 2 f_equal.
  rewrite Z.sgn_mul, (Z.sgn_pos (2 ^ k)), !Z.mul_1_r by exact Hpow.
  pose proof (Z.abs_sgn q) as Hsgn. nia.
Qed.

(** Comparing an exact quotient with an integer, and reading it as an
    integer. *)
Lemma true_div_exact_compare (a k : Z) :
  a <> 0 -> Z.abs a < 2 ^ 53 * 2 ^ k -> 0 <= k -> (2 ^ k | a) ->
  exists x : float,
    true_div a (2 ^ k) = Ok x /\
    (forall t, float_gt_int x t = (t * 2 ^ k <? a)) /\
    (forall t, float_is_int x t <-> t * 2 ^ k = a).
Proof.
  intros Ha Hsmall Hk [q ->].
  assert (Hpow : 0 < 2 ^ k) by (apply Z.pow_pos_nonneg; lia).
  assert (Hq : q <> 0) by (intros ->; apply Ha; reflexivity).
  assert (Hq53 : Z.abs q < 2 ^ 53).
  { rewrite Z.abs_mul, (Z.abs_eq (2 ^ k)) in Hsmall by lia. nia. }
  assert (Hlog52 : Z.log2 (Z.abs q) < 53) by (apply Z.log2_lt_pow2; [lia | assumption]).
  pose proof (Z.log2_nonneg (Z.abs q)) as Hlog0.
  eexists. split; [apply true_div_exact; assumption|].
  set (lq := Z.log2 (Z.abs q)) in *.
  assert (Hscale : 0 < 2 ^ (52 - lq)) by (apply Z.pow_pos_nonneg; lia).
  assert (Hexp : 2 ^ Z.max 0 (- (lq - 52)) = 2 ^ (52 - lq)).
  { rewrite Z.max_r by lia. f_equal. lia. }
  assert (Hone : 2 ^ Z.max 0 (lq - 52) = 1) by (rewrite Z.max_l by lia; reflexivity).
  split; intros t.
  - unfold float_gt_int. cbn [mantissa exponent]. rewrite Hexp, Hone.
    destruct (Z.ltb_spec (t * 2 ^ k) (q * 2 ^ k));
      [apply Z.ltb_lt | apply Z.ltb_ge]; nia.
  - unfold float_is_int. cbn [mantissa exponent]. rewrite Hexp, Hone. split; nia.
Qed.

(** A quotient by [2^k] that reaches 2^53 is rounded to 53 bits; the result
    keeps the sign and is no smaller than 2^53 in absolute value. *)
Lemma true_div_large (a k : Z) :
  0 <= k -> 2 ^ 53 * 2 ^ k <= Z.abs a -> Z.abs a < 2 ^ 1023 * 2 ^ k ->
  exists m s : Z,
    true_div a (2 ^ k) = Ok (mkFloat (Z.sgn a * m) s) /\ 2 ^ 52 <= m /\ 1 <= s.
Proof.
  intros Hk Hlow Hhigh.
  assert (Hpow : 0 < 2 ^ k) by (apply Z.pow_pos_nonneg; lia).
  assert (Hn : 0 < Z.abs a) by nia.
  assert (Hle : 2 ^ k <= Z.abs a) by nia.
  assert (Hla_low : 53 + k <= Z.log2 (Z.abs a)).
  { apply Z.log2_le_pow2; [exact Hn|]. rewrite Z.pow_add_r by lia. exact Hlow. }
  assert (Hla_high : Z.log2 (Z.abs a) < 1023 + k).
  { apply Z.log2_lt_pow2; [exact Hn|]. rewrite Z.pow_add_r by lia. exact Hhigh. }
  destruct (Z.log2_spec (Z.abs a) Hn) as [Hfloor Hceil].
  unfold true_div.
  replace (2 ^ k =? 0) with false by (symmetry; apply Z.eqb_neq; lia).
  replace (a =? 0) with false by (symmetry; apply Z.eqb_neq; lia).
  rewrite (Z.abs_eq (2 ^ k)) by lia.
  rewrite quotient_log2_pow2 by assumption.
  set (la := Z.log2 (Z.abs a)) in *.
  rewrite (Z.max_l (la - k - 52)) by lia.
  rewrite (Z.max_l 0 (- (la - k - 52))), (Z.max_r 0 (la - k - 52)) by lia.
  change (2 ^ 0) with 1. rewrite Z.mul_1_r.
  rewrite <- Z.pow_add_r by lia.
  replace (k + (la - k - 52)) with (la - 52) by lia.
  set (m := round_half_even (Z.abs a) (2 ^ (la - 52))).
  assert (Hd : 0 < 2 ^ (la - 52)) by (apply Z.pow_pos_nonneg; lia).
  assert (Hsplit : 2 ^ la = 2 ^ 52 * 2 ^ (la - 52)).
  { rewrite <- Z.pow_add_r by lia. f_equal. lia. }
  assert (Hsplit' : 2 ^ Z.succ la = 2 ^ 53 * 2 ^ (la - 52)).
  { rewrite <- Z.pow_add_r by lia. f_equal. lia. }
  assert (Hq_low : 2 ^ 52 <= Z.abs a / 2 ^ (la - 52)).
  { apply Z.div_le_lower_bound; [exact Hd | lia]. }
  assert (Hq_high : Z.abs a / 2 ^ (la - 52) < 2 ^ 53).
  { apply Z.div_lt_upper_bound; [exact Hd | lia]. }
  pose proof (round_half_even_bounds (Z.abs a) (2 ^ (la - 52))) as Hm.
  fold m in Hm.
  assert (Hfit : m * 2 ^ (la - k - 52) < 2 ^ 1024).
  { assert (Hs : 0 < 2 ^ (la - k - 52) <= 2 ^ 970).
    { split; [apply Z.pow_pos_nonneg; lia | apply Z.pow_le_mono_r; lia]. }
    apply Z.le_lt_trans with (2 ^ 53 * 2 ^ 970); [nia | reflexivity]. }
  replace (2 ^ 1024 <=? m * 2 ^ (la - k - 52)) with false
    by (symmetry; apply Z.leb_gt; exact Hfit).
  exists m, (la - k - 52). split; [|split; lia].
  rewrite (Z.sgn_pos (2 ^ k)), Z.mul_1_r by exact Hpow. reflexivity.
Qed.

(** The float of a power of two is that power of two. *)
Lemma float_of_int_pow2 (k : Z) :
  0 <= k < 1024 ->
  exists x : float, float_of_int (2 ^ k) = Ok x /\ float_is_int x (2 ^ k).
Proof.
  intros Hk.
  assert (Hpow : 0 < 2 ^ k) by (apply Z.pow_pos_nonneg; lia).
  destruct (Z_lt_le_dec k 53) as [Hsmall|Hlarge].
  - destruct (true_div_exact_compare (2 ^ k) 0) as (x & Hdiv & _ & Hint).
    + lia.
    + rewrite Z.abs_eq by lia. change (2 ^ 0) with 1. rewrite Z.mul_1_r.
      apply Z.pow_lt_mono_r; lia.
    + lia.
    + apply Z.divide_1_l.
    + exists x. split; [exact Hdiv|]. apply Hint. change (2 ^ 0) with 1. lia.
  - unfold float_of_int, true_div. change (1 =? 0) with false.
    replace (2 ^ k =? 0) with false by (symmetry; apply Z.eqb_neq; lia).
    rewrite Z.abs_eq by lia. change (Z.abs 1) with (2 ^ 0).
    rewrite quotient_log2_pow2 by (change (2 ^ 0) with 1; lia).
    rewrite Z.log2_pow2 by lia.
    rewrite (Z.max_l (k - 0 - 52)) by lia.
    rewrite (Z.max_l 0 (- (k - 0 - 52))), (Z.max_r 0 (k - 0 - 52)) by lia.
    change (2 ^ 0) with 1. rewrite Z.mul_1_r, Z.mul_1_l.
    assert (Hsplit : 2 ^ k = 2 ^ 52 * 2 ^ (k - 0 - 52)).
    { rewrite <- Z.pow_add_r by lia. f_equal. lia. }
    assert (Hd : 0 < 2 ^ (k - 0 - 52)) by (apply Z.pow_pos_nonneg; lia).
    assert (Hm : round_half_even (2 ^ k) (2 ^ (k - 0 - 52)) = 2 ^ 52).
    { rewrite Hsplit at 1. apply round_half_even_exact. exact Hd. }
    rewrite Hm.
    rewrite <- Hsplit.
    replace (2 ^ 1024 <=? 2 ^ k) with false
      by (symmetry; apply Z.leb_gt; apply Z.pow_lt_mono_r; lia).
    eexists. split; [reflexivity|].
    unfold float_is_int. cbn [mantissa exponent].
    rewrite (Z.max_l 0 (- (k - 0 - 52))), (Z.max_r 0 (k - 0 - 52)) by lia.
    rewrite (Z.sgn_pos (2 ^ k)) by exact Hpow.
    change (2 ^ 0) with 1. change (Z.sgn 1) with 1. lia.
Qed.

(** The loop condition in integer arithmetic, for a world size below 2^106
    in absolute value: a quotient that is rounded is compared with a factor
    below 2^53 only. *)
Lemma predivide_continue_spec (world_size : Z) (k : nat) :
  Z.abs world_size < 2 ^ 106 ->
  exists b : bool,
    predivide_continue world_size (2 ^ Z.of_nat k) = Ok b /\
    (b = true <->
     world_size mod 2 ^ Z.of_nat k = 0 /\ 2 ^ Z.of_nat k * 2 ^ Z.of_nat k < world_size).
Proof.
  intros Hsmall.
  assert (Hpow : 0 < 2 ^ Z.of_nat k) by (apply Z.pow_pos_nonneg; lia).
  unfold predivide_continue.
  destruct (Z.eqb_spec (world_size mod 2 ^ Z.of_nat k) 0) as [Hmod|Hmod].
  - destruct (Z.eq_dec world_size 0) as [->|Hnz].
    + unfold true_div.
      replace (2 ^ Z.of_nat k =? 0) with false by (symmetry; apply Z.eqb_neq; lia).
      cbn [Z.eqb bind]. exists false. split.
      * f_equal. unfold float_gt_int. cbn [mantissa exponent].
        apply Z.ltb_ge. cbn. lia.
      * split; [discriminate | lia].
    + destruct (Z_lt_le_dec (Z.abs world_size) (2 ^ 53 * 2 ^ Z.of_nat k))
        as [Hexact|Hrounded].
      * destruct (true_div_exact_compare world_size (Z.of_nat k))
          as (x & Hdiv & Hgt & _);
          [exact Hnz | exact Hexact | lia | apply Z.mod_divide; [lia | exact Hmod] |].
        rewrite Hdiv. cbn [bind]. rewrite Hgt. eexists. split; [reflexivity|].
        rewrite Z.ltb_lt. split; [intros H; split; assumption | intros [_ H]; exact H].
      * assert (Hk53 : 2 ^ Z.of_nat k < 2 ^ 53).
        { change (2 ^ 106) with (2 ^ 53 * 2 ^ 53) in Hsmall. nia. }
        destruct (true_div_large world_size (Z.of_nat k)) as (m & s & Hdiv & Hm & Hs).
        { lia. }
        { exact Hrounded. }
        { apply Z.lt_le_trans with (2 ^ 106); [exact Hsmall|].
          apply Z.le_trans with (2 ^ 1023 * 1); [cbv; discriminate | nia]. }
        rewrite Hdiv. cbn [bind]. eexists. split; [reflexivity|].
        unfold float_gt_int. cbn [mantissa exponent].
        rewrite (Z.max_l 0 (- s)), (Z.max_r 0 s) by lia.
        change (2 ^ 0) with 1. rewrite Z.mul_1_r.
        assert (Hscale : 2 <= 2 ^ s).
        { change 2 with (2 ^ 1) at 1. apply Z.pow_le_mono_r; lia. }
        assert (H52 : 2 ^ 53 = 2 ^ 52 * 2) by reflexivity.
        rewrite Z.ltb_lt.
        destruct (Z.sgn_spec world_size) as [[Hpos ->]|[[Hzero _]|[Hneg ->]]].
        -- rewrite Z.abs_eq in Hrounded by lia.
           split; [intros _; split; [exact Hmod | nia] | intros _; nia].
        -- congruence.
        -- split; [intros H; exfalso; nia | intros [_ H]; exfalso; nia].
  - exists false. split; [reflexivity|]. split; [discriminate | intros [H _]; contradiction].
Qed.

(** The loop ends, with no exception, at the first power of two at which its
    condition fails. *)
Lemma predivide_loop_spec (world_size : Z) (fuel k : nat) :
  Z.abs world_size < 2 ^ 106 ->
  (Z.to_nat (Z.log2 world_size) + 2 <= k + fuel)%nat ->
  (forall j : nat, (j < k)%nat ->
     world_size mod 2 ^ Z.of_nat j = 0 /\ 2 ^ Z.of_nat j * 2 ^ Z.of_nat j < world_size) ->
  exists k' : nat,
    predivide_loop fuel world_size (2 ^ Z.of_nat k) = Some (Ok (2 ^ Z.of_nat k')) /\
    (forall j : nat, (j < k')%nat ->
       world_size mod 2 ^ Z.of_nat j = 0 /\ 2 ^ Z.of_nat j * 2 ^ Z.of_nat j < world_size) /\
    ~ (world_size mod 2 ^ Z.of_nat k' = 0 /\ 2 ^ Z.of_nat k' * 2 ^ Z.of_nat k' < world_size).
Proof.
  intros Hsmall. revert k. induction fuel as [|fuel IH]; intros k Hfuel Hbelow.
  - exfalso. destruct k as [|k]; [lia|].
    destruct (Hbelow k) as [_ Hsq]; [lia|].
    assert (Hpos : 0 < 2 ^ Z.of_nat k) by (apply Z.pow_pos_nonneg; lia).
    assert (Hlog : Z.of_nat k <= Z.log2 world_size) by (apply Z.log2_le_pow2; nia).
    lia.
  - cbn [predivide_loop].
    destruct (predivide_continue_spec world_size k Hsmall) as (b & -> & Hb).
    destruct b.
    + assert (Hc : world_size mod 2 ^ Z.of_nat k = 0 /\
                   2 ^ Z.of_nat k * 2 ^ Z.of_nat k < world_size) by (apply Hb; reflexivity).
      assert (Hdouble : 2 ^ Z.of_nat k * 2 = 2 ^ Z.of_nat (S k)).
      { rewrite Nat2Z.inj_succ, Z.pow_succ_r by lia. lia. }
      rewrite Hdouble. apply IH; [lia|].
      intros j Hj. destruct (Nat.eq_dec j k) as [->|Hne]; [exact Hc|].
      apply Hbelow. lia.
    + exists k. split; [reflexivity|]. split; [assumption|].
      intros Hcond. apply Hb in Hcond. discriminate.
Qed.

(** Powers of two are ordered by their exponents, and the smaller divides the
    larger. *)
Lemma pow2_divide_mono (j k : nat) :
  (j <= k)%nat ->
  (2 ^ Z.of_nat j | 2 ^ Z.of_nat k) /\ 0 < 2 ^ Z.of_nat j <= 2 ^ Z.of_nat k.
Proof.
  intros Hjk. split.
  - exists (2 ^ Z.of_nat (k - j)). rewrite <- Z.pow_add_r by lia. f_equal. lia.
  - split; [apply Z.pow_pos_nonneg; lia | apply Z.pow_le_mono_r; lia].
Qed.

(** For a world size below 2^106 in absolute value the function returns the
    float of the power of two at which the loop ends. *)
Lemma get_gradient_predivide_factor_total (world_size : Z) :
  Z.abs world_size < 2 ^ 106 ->
  exists (k : nat) (x : float),
    get_gradient_predivide_factor world_size = Some (Ok x) /\
    float_is_int x (2 ^ Z.of_nat k) /\
    (forall j : nat, (j < k)%nat ->
       world_size mod 2 ^ Z.of_nat j = 0 /\ 2 ^ Z.of_nat j * 2 ^ Z.of_nat j < world_size) /\
    ~ (world_size mod 2 ^ Z.of_nat k = 0 /\ 2 ^ Z.of_nat k * 2 ^ Z.of_nat k < world_size).
Proof.
  intros Hsmall.
  destruct (predivide_loop_spec world_size (Z.to_nat (Z.log2 world_size) + 2) 0 Hsmall)
    as (k & Hrun & Hbelow & Hstop); [lia | intros j Hj; lia |].
  change (2 ^ Z.of_nat 0) with 1 in Hrun.
  assert (Hk : (k <= 53)%nat).
  { destruct k as [|k]; [lia|].
    destruct (Hbelow k) as [_ Hsq]; [lia|].
    rewrite <- Z.pow_add_r in Hsq by lia.
    assert (Hlt : 2 ^ (Z.of_nat k + Z.of_nat k) < 2 ^ 106) by lia.
    apply Z.pow_lt_mono_r_iff in Hlt; lia. }
  destruct (float_of_int_pow2 (Z.of_nat k)) as (x & Hfloat & Hint); [lia|].
  exists k, x. unfold get_gradient_predivide_factor. rewrite Hrun.
  split; [rewrite Hfloat; reflexivity|]. split; [exact Hint|]. split; assumption.
Qed.

(** C3, as amended: for [1 <= world_size < 2^106] the function returns the
    float of a power of two, the smallest one that does not both divide
    [world_size] and have its square strictly below [world_size]; from
    [world_size = 2] on, that is twice the largest power of two that divides
    [world_size] and lies strictly below its square root. *)
Theorem get_gradient_predivide_factor_spec (world_size : Z) :
  1 <= world_size < 2 ^ 106 ->
  exists (x : float) (f : Z),
    get_gradient_predivide_factor world_size = Some (Ok x) /\
    float_is_int x f /\
    is_pow2 f /\
    ~ (world_size mod f = 0 /\ f * f < world_size) /\
    (forall g : Z, is_pow2 g -> g < f ->
       world_size mod g = 0 /\ g * g < world_size) /\
    (2 <= world_size ->
       exists g : Z, f = 2 * g /\ largest_pow2_divisor_lt_sqrt world_size g).
Proof.
  intros Hws.
  destruct (get_gradient_predivide_factor_total world_size)
    as (k & x & Hrun & Hint & Hbelow & Hstop); [lia|].
  exists x, (2 ^ Z.of_nat k). split; [exact Hrun|]. split; [exact Hint|].
  split; [exists k; reflexivity|]. split; [exact Hstop|]. split.
  - intros g [j ->] Hlt. apply Hbelow.
    destruct (le_lt_dec k j) as [Hkj|]; [|assumption].
    apply pow2_divide_mono in Hkj. lia.
  - intros Hws2. destruct k as [|k].
    + exfalso. apply Hstop. change (2 ^ Z.of_nat 0) with 1.
      rewrite Z.mod_1_r. lia.
    + exists (2 ^ Z.of_nat k). split.
      { rewrite Nat2Z.inj_succ, Z.pow_succ_r by lia. reflexivity. }
      destruct (Hbelow k) as [Hmod Hsq]; [lia|].
      assert (Hk : 0 < 2 ^ Z.of_nat k) by (apply Z.pow_pos_nonneg; lia).
      split; [exists k; reflexivity|].
      split; [apply Z.mod_divide; [lia | exact Hmod]|].
      split; [exact Hsq|].
      intros g [j ->] Hdiv Hlt.
      destruct (le_lt_dec j k) as [Hjk|Hkj].
      * apply pow2_divide_mono in Hjk. lia.
      * exfalso. apply Hstop.
        assert (Hle : (S k <= j)%nat) by lia.
        apply pow2_divide_mono in Hle. destruct Hle as [Hd Hord].
        split.
        -- apply Z.mod_divide; [lia|]. eapply Z.divide_trans; eassumption.
        -- nia.
Qed.

(** The amended statement at [world_size = 8]. *)
Lemma get_gradient_predivide_factor_spec_witness :
  1 <= 8 < 2 ^ 106 /\
  exists (x : float) (f : Z),
    get_gradient_predivide_factor 8 = Some (Ok x) /\
    float_is_int x f /\
    is_pow2 f /\
    ~ (8 mod f = 0 /\ f * f < 8) /\
    (forall g : Z, is_pow2 g -> g < f -> 8 mod g = 0 /\ g * g < 8) /\
    (2 <= 8 -> exists g : Z, f = 2 * g /\ largest_pow2_divisor_lt_sqrt 8 g).
Proof.
  assert (Hws : 1 <= 8 < 2 ^ 106) by (split; [lia | reflexivity]).
  split; [exact Hws | exact (get_gradient_predivide_factor_spec 8 Hws)].
Defined.

(** C3, as stated, fails at [world_size = 8]: the function returns 4.0, and
    4 exceeds the square root of 8. *)
Lemma get_gradient_predivide_factor_not_le_sqrt :
  (exists x : float,
     get_gradient_predivide_factor 8 = Some (Ok x) /\ float_is_int x 4) /\
  ~ (exists (x : float) (f : Z),
       get_gradient_predivide_factor 8 = Some (Ok x) /\
       float_is_int x f /\
       largest_pow2_divisor_le_sqrt 8 f).
Proof.
  split.
  - eexists. split; reflexivity.
  - intros (x & f & Hrun & Hint & _ & _ & Hsq & _).
    vm_compute in Hrun. injection Hrun as <-.
    unfold float_is_int in Hint. cbn in Hint. lia.
Qed.

(** From 2^106 on the rounding shows: at [2^53 * (2^53 + 1)] the quotient
    [2^53 + 1] of the last test is rounded to [2^53], the test fails and the
    function returns [2^53], although [2^53] divides the world size and its
    square lies below it.  From 2^1024 on, and down from -2^1024, the first
    division raises an OverflowError. *)
Example get_gradient_predivide_factor_beyond_2_106 :
  (exists x : float,
     get_gradient_predivide_factor (2 ^ 53 * (2 ^ 53 + 1)) = Some (Ok x) /\
     float_is_int x (2 ^ 53)) /\
  get_gradient_predivide_factor (2 ^ 1024) = Some (Raise OverflowError) /\
  get_gradient_predivide_factor (- 2 ^ 1024) = Some (Raise OverflowError).
Proof.
  split; [eexists; split; vm_compute; reflexivity|].
  split; vm_compute; reflexivity.
Qed.

(** *** Further facts on the factor *)

(** X1: for a world size that is a power of two below 2^106, [2^n] with
    [n <= 105], the factor is [2^ceil(n/2)]: its square is the world size or
    twice the world size. *)
Theorem get_gradient_predivide_factor_pow2 (n : nat) :
  (n <= 105)%nat ->
  exists x : float,
    get_gradient_predivide_factor (2 ^ Z.of_nat n) = Some (Ok x) /\
    float_is_int x (2 ^ Z.of_nat ((n + 1) / 2)).
Proof.
  intros Hn.
  assert (Hpos : 0 < 2 ^ Z.of_nat n) by (apply Z.pow_pos_nonneg; lia).
  assert (Hsmall : Z.abs (2 ^ Z.of_nat n) < 2 ^ 106).
  { rewrite Z.abs_eq by lia. apply Z.pow_lt_mono_r; lia. }
  destruct (get_gradient_predivide_factor_total (2 ^ Z.of_nat n) Hsmall)
    as (k & x & Hrun & Hint & Hbelow & Hstop).
  exists x. split; [exact Hrun|].
  replace ((n + 1) / 2)%nat with k; [exact Hint|].
  assert (Hsq : forall j : nat,
            2 ^ Z.of_nat j * 2 ^ Z.of_nat j < 2 ^ Z.of_nat n <-> (2 * j < n)%nat).
  { intros j. rewrite <- Z.pow_add_r by lia.
    rewrite <- Z.pow_lt_mono_r_iff by lia. lia. }
  assert (Hlow : (k = 0 \/ 2 * (k - 1) < n)%nat).
  { destruct k as [|k]; [left; reflexivity | right].
    apply Hsq. apply Hbelow. lia. }
  assert (Hhigh : (n <= 2 * k)%nat).
  { destruct (le_lt_dec n (2 * k)) as [|Hlt]; [assumption|].
    exfalso. apply Hstop. split; [|apply Hsq; exact Hlt].
    assert (Hkn : (k <= n)%nat) by lia.
    apply pow2_divide_mono in Hkn. destruct Hkn as [Hdiv Hord].
    apply Z.mod_divide; [lia | exact Hdiv]. }
  pose proof (Nat.div_mod_eq (n + 1) 2) as Hdm.
  pose proof (Nat.mod_upper_bound (n + 1) 2) as Hmod.
  lia.
Qed.

(** X1 at a world size of 32. *)
Lemma get_gradient_predivide_factor_pow2_witness :
  (5 <= 105)%nat /\
  exists x : float,
    get_gradient_predivide_factor (2 ^ Z.of_nat 5) = Some (Ok x) /\
    float_is_int x (2 ^ Z.of_nat ((5 + 1) / 2)).
Proof.
  assert (Hn : (5 <= 105)%nat) by lia.
  split; [exact Hn | exact (get_gradient_predivide_factor_pow2 5 Hn)].
Defined.

(** X2: for an odd world size from 3 on and below 2^106 the factor is 2,
    which does not divide the world size. *)
Theorem get_gradient_predivide_factor_odd (world_size : Z) :
  3 <= world_size < 2 ^ 106 -> world_size mod 2 = 1 ->
  (exists x : float,
     get_gradient_predivide_factor world_size = Some (Ok x) /\ float_is_int x 2) /\
  ~ (2 | world_size).
Proof.
  intros Hws Hodd.
  destruct (get_gradient_predivide_factor_total world_size)
    as (k & x & Hrun & Hint & Hbelow & Hstop); [lia|].
  split.
  - exists x. split; [exact Hrun|]. destruct k as [|[|k]].
    + exfalso. apply Hstop. change (2 ^ Z.of_nat 0) with 1.
      rewrite Z.mod_1_r. lia.
    + exact Hint.
    + destruct (Hbelow 1%nat) as [Heven _]; [lia|].
      change (2 ^ Z.of_nat 1) with 2 in Heven. lia.
  - intros Hdiv. apply Z.mod_divide in Hdiv; lia.
Qed.

(** X2 at a world size of 5. *)
Lemma get_gradient_predivide_factor_odd_witness :
  3 <= 5 < 2 ^ 106 /\ 5 mod 2 = 1 /\
  (exists x : float,
     get_gradient_predivide_factor 5 = Some (Ok x) /\ float_is_int x 2) /\
  ~ (2 | 5).
Proof.
  assert (Hws : 3 <= 5 < 2 ^ 106) by (split; [lia | reflexivity]).
  split; [exact Hws|]. split; [reflexivity|].
  exact (get_gradient_predivide_factor_odd 5 Hws eq_refl).
Defined.

(** X3: for a world size below 2^106 in absolute value the function returns,
    and the factor is at least 1; it is 1 for every world size up to 1 (zero
    and negative ones too); from a world size of 2 on it lies between 2 and
    the world size, and its square stays below four times the world size. *)
Theorem get_gradient_predivide_factor_bounds (world_size : Z) :
  - 2 ^ 106 < world_size < 2 ^ 106 ->
  exists (x : float) (f : Z),
    get_gradient_predivide_factor world_size = Some (Ok x) /\
    float_is_int x f /\
    1 <= f /\
    (world_size <= 1 -> f = 1) /\
    (2 <= world_size -> 2 <= f <= world_size /\ f * f < 4 * world_size).
Proof.
  intros Hws.
  destruct (get_gradient_predivide_factor_total world_size)
    as (k & x & Hrun & Hint & Hbelow & Hstop); [lia|].
  exists x, (2 ^ Z.of_nat k). split; [exact Hrun|]. split; [exact Hint|].
  assert (Hpos : 0 < 2 ^ Z.of_nat k) by (apply Z.pow_pos_nonneg; lia).
  split; [lia|]. split.
  - intros Hsmall. destruct k as [|k]; [reflexivity|].
    destruct (Hbelow 0%nat) as [_ Hsq]; [lia|].
    change (2 ^ Z.of_nat 0) with 1 in Hsq. lia.
  - intros Hws2. destruct k as [|k].
    + exfalso. apply Hstop. change (2 ^ Z.of_nat 0) with 1.
      rewrite Z.mod_1_r. lia.
    + destruct (Hbelow k) as [Hmod Hsq]; [lia|].
      assert (Hg : 0 < 2 ^ Z.of_nat k) by (apply Z.pow_pos_nonneg; lia).
      rewrite Nat2Z.inj_succ, Z.pow_succ_r by lia.
      pose proof (Z.div_mod world_size (2 ^ Z.of_nat k)) as Hdm.
      rewrite Hmod in Hdm.
      set (g := 2 ^ Z.of_nat k) in *. set (q := world_size / g) in *.
      assert (Hq : g < q) by nia.
      nia.
Qed.

(** X3 at a world size of 12. *)
Lemma get_gradient_predivide_factor_bounds_witness :
  - 2 ^ 106 < 12 < 2 ^ 106 /\
  exists (x : float) (f : Z),
    get_gradient_predivide_factor 12 = Some (Ok x) /\
    float_is_int x f /\
    1 <= f /\
    (12 <= 1 -> f = 1) /\
    (2 <= 12 -> 2 <= f <= 12 /\ f * f < 4 * 12).
Proof.
  assert (Hws : - 2 ^ 106 < 12 < 2 ^ 106) by (split; reflexivity).
  split; [exact Hws | exact (get_gradient_predivide_factor_bounds 12 Hws)].
Defined.

End Predivide.

(** ** Python lists *)

(** [len(l)]. *)
Definition len {A : Type} (l : list A) : Z := Z.of_nat (length l).

(** The position a Python index denotes in [l]: non-negative indices count
    from the front, negative ones from the end, anything else is an
    IndexError. *)
Definition list_position {A : Type} (l : list A) (i : Z) : result nat :=
  if (0 <=? i) && (i <? len l) then Ok (Z.to_nat i)
  else if (- len l <=? i) && (i <? 0) then Ok (Z.to_nat (len l + i))
  else Raise IndexError.

(** [l[i]]. *)
Definition getitem {A : Type} (l : list A) (i : Z) : result A :=
  n <- list_position l i ;;
  match nth_error l n with
  | Some x => Ok x
  | None => Raise IndexError
  end.

(** [l[i] = v], giving the list after the assignment. *)
Definition setitem {A : Type} (l : list A) (i : Z) (v : A) : result (list A) :=
  n <- list_position l i ;;
  Ok (firstn n l ++ v :: skipn (S n) l).

(** [[f(x) for x in l]] for an [f] that can raise. *)
Fixpoint mapM {A B : Type} (f : A -> result B) (l : list A) : result (list B) :=
  match l with
  | [] => Ok []
  | x :: l' => y <- f x ;; ys <- mapM f l' ;; Ok (y :: ys)
  end.

(** [sum(l)]. *)
Definition sum (l : list Z) : Z := fold_right Z.add 0 l.

(** *** Facts on indexing *)

Section ListFacts.

Context {A : Type}.

Lemma getitem_nth (l : list A) (i : Z) (d : A) :
  0 <= i < len l -> getitem l i = Ok (nth (Z.to_nat i) l d).
Proof.
  intros Hi. unfold getitem, list_position.
  replace ((0 <=? i) && (i <? len l)) with true
    by (symmetry; apply andb_true_iff; split; [apply Z.leb_le | apply Z.ltb_lt]; lia).
  cbn [bind].
  rewrite (nth_error_nth' l d) by (unfold len in Hi; lia).
  reflexivity.
Qed.

Lemma getitem_head (x : A) (l : list A) : getitem (x :: l) 0 = Ok x.
Proof.
  rewrite (getitem_nth (x :: l) 0 x); [reflexivity|].
  unfold len. cbn [length]. lia.
Qed.

(** Index [-1] is the last position of a non-empty list. *)
Lemma list_position_last (front : list A) (x : A) :
  list_position (front ++ [x]) (-1) = Ok (length front).
Proof.
  unfold list_position, len. rewrite length_app. cbn [length].
  replace ((0 <=? -1) && (-1 <? Z.of_nat (length front + 1))) with false by reflexivity.
  replace ((- Z.of_nat (length front + 1) <=? -1) && (-1 <? 0)) with true
    by (symmetry; apply andb_true_iff; split; [apply Z.leb_le; lia | reflexivity]).
  f_equal. lia.
Qed.

Lemma getitem_last (front : list A) (x : A) : getitem (front ++ [x]) (-1) = Ok x.
Proof.
  unfold getitem. rewrite list_position_last. cbn [bind].
  rewrite nth_error_app2, Nat.sub_diag by lia. reflexivity.
Qed.

Lemma setitem_last (front : list A) (x v : A) :
  setitem (front ++ [x]) (-1) v = Ok (front ++ [v]).
Proof.
  unfold setitem. rewrite list_position_last. cbn [bind].
  rewrite firstn_app, firstn_all, Nat.sub_diag, firstn_O, app_nil_r.
  rewrite skipn_all2 by (rewrite length_app; cbn [length]; lia).
  reflexivity.
Qed.

(** Reading every position of a list in turn gives the list back. *)
Lemma map_nth_seq (l : list A) (d : A) :
  map (fun i => nth i l d) (seq 0 (length l)) = l.
Proof.
  induction l as [|x l IH]; [reflexivity|].
  cbn [length seq map nth]. f_equal.
  rewrite <- seq_shift, map_map. exact IH.
Qed.

Lemma mapM_map {B : Type} (f : A -> result B) (g : A -> B) (l : list A) :
  (forall x, In x l -> f x = Ok (g x)) -> mapM f l = Ok (map g l).
Proof.
  induction l as [|x l IH]; intros Hf; [reflexivity|].
  cbn [mapM map]. rewrite (Hf x) by (left; reflexivity). cbn [bind].
  rewrite IH by (intros y Hy; apply Hf; right; exact Hy). reflexivity.
Qed.

Lemma sum_map_sub (f g : A -> Z) (l : list A) :
  sum (map f l) - sum (map g l) = sum (map (fun x => f x - g x) l).
Proof.
  unfold sum. induction l as [|x l IH]; [reflexivity|].
  cbn [map fold_right]. lia.
Qed.

Lemma sum_map_len_concat (ls : list (list A)) :
  sum (map len ls) = len (concat ls).
Proof.
  unfold sum. induction ls as [|l ls IH]; [reflexivity|].
  cbn [map concat fold_right]. rewrite IH. unfold len.
  rewrite length_app. lia.
Qed.

End ListFacts.

Module Shard.

(** ** get_shard and chunk_and_pad *)

Section Sharding.

(** The element type of the tensors and the value [F.pad] and
    [torch.zeros_like] fill with. *)
Variable elem : Type.
Variable zero : elem.

(** Both helpers read their argument through [torch.flatten] only, so a
    tensor is the row-major sequence of its elements. *)
Definition Tensor : Type := list elem.

Definition numel (t : Tensor) : Z := len t.

(** [torch.flatten(t)]: the same elements as a 1-D tensor. *)
Definition flatten (t : Tensor) : Tensor := t.

(** [t.clone()]. *)
Definition clone (t : Tensor) : Tensor := t.

(** [t.new_empty(0)]: a tensor with no element. *)
Definition new_empty0 (t : Tensor) : Tensor := [].

(** [F.pad(t, [0, n])] for [n > 0]: [n] zeros after the last element. *)
Definition pad (t : Tensor) (n : Z) : Tensor := t ++ repeat zero (Z.to_nat n).

(** [torch.zeros_like(t)]. *)
Definition zeros_like (t : Tensor) : Tensor := repeat zero (length t).

(** The first [num_splits] pieces of [split_size] elements each; the last
    piece takes what is left when that is less. *)
Fixpoint split_pieces (num_splits split_size : nat) (t : Tensor) : list Tensor :=
  match num_splits with
  | O => []
  | S k => firstn split_size t :: split_pieces k split_size (skipn split_size t)
  end.

(** Modelled from the spec: [Tensor.split] of a 1-D tensor, the library
    function under torch.chunk (it is no code of this repository):
    [max(ceil(numel / split_size), 1)] pieces, all of [split_size] elements but
    a possibly smaller last one. *)
Definition split (t : Tensor) (split_size : nat) : list Tensor :=
  let num_splits := Nat.max ((length t + split_size - 1) / split_size) 1 in
  split_pieces num_splits split_size t.

(** Modelled from the spec: [Tensor.chunk] of a 1-D tensor, the library
    chunking (near-equal sizes, last chunk possibly smaller, fewer chunks than
    asked for when the source is smaller than the partition count).  The
    chunk size is [ceil(numel / chunks)]; a tensor without elements is cut
    into [chunks] empty chunks; [chunks <= 0] is refused. *)
Definition chunk (t : Tensor) (chunks : Z) : result (list Tensor) :=
  if chunks <=? 0 then Raise RuntimeError
  else
    let n := Z.to_nat chunks in
    let split_size := ((length t + n - 1) / n)%nat in
    if ((split_size =? 0) && (length t =? 0))%nat
    then Ok (repeat [] n)
    else Ok (split t split_size).

(** The [while] of lines 20-21.  Each turn makes the list one longer, so the
    body runs once per missing chunk: [missing] is
    [world_size - len(chunks)] at the loop's entry. *)
Fixpoint append_empty (missing : nat) (chunks : list Tensor) : result (list Tensor) :=
  match missing with
  | O => Ok chunks
  | S m =>
      c0 <- getitem chunks 0 ;;
      append_empty m (chunks ++ [new_empty0 c0])
  end.

(** Lines 19-21 of [get_shard]: the chunks, made [world_size] many. *)
Definition shard_chunks (tensor : Tensor) (world_size : Z) : result (list Tensor) :=
  chunks <- chunk (flatten tensor) world_size ;;
  append_empty (Z.to_nat (world_size - len chunks)) chunks.

(** Line 24 of [get_shard]. *)
Definition num_to_pad_of (chunks : list Tensor) (rank : Z) : result Z :=
  c0 <- getitem chunks 0 ;;
  cr <- getitem chunks rank ;;
  Ok (numel c0 - numel cr).

(** Lines 16-30. *)
Definition get_shard (tensor : Tensor) (rank world_size : Z) : result (Tensor * Z) :=
  chunks <- shard_chunks tensor world_size ;;
  num_to_pad <- num_to_pad_of chunks rank ;;
  if negb (num_to_pad >=? 0) then Raise AssertionError
  else
    cr <- getitem chunks rank ;;
    let shard := clone cr in
    let shard := if num_to_pad >? 0 then pad shard num_to_pad else shard in
    Ok (shard, num_to_pad).

(** Lines 86-95. *)
Definition chunk_and_pad (tensor : Tensor) (num_chunks : Z) : result (list Tensor) :=
  chunks <- chunk (flatten tensor) num_chunks ;;
  c0 <- getitem chunks 0 ;;
  clast <- getitem chunks (-1) ;;
  let num_pad_for_partial_chunk := numel c0 - numel clast in
  chunks <- (if num_pad_for_partial_chunk >? 0
             then setitem chunks (-1) (pad clast num_pad_for_partial_chunk)
             else Ok chunks) ;;
  if len chunks <? num_chunks
  then
    c0 <- getitem chunks 0 ;;
    Ok (chunks ++ map (fun _ => zeros_like c0)
                      (seq 0 (Z.to_nat (num_chunks - len chunks))))
  else Ok chunks.

(** The ranks [0 .. world_size - 1]. *)
Definition ranks (world_size : Z) : list Z :=
  map Z.of_nat (seq 0 (Z.to_nat world_size)).

(** [get_shard] called once for every rank, in rank order. *)
Definition get_all_shards (tensor : Tensor) (world_size : Z) : result (list (Tensor * Z)) :=
  mapM (fun rank => get_shard tensor rank world_size) (ranks world_size).

(** *** The chunking of the library *)

(** [(n + d - 1) / d] is the quotient rounded up. *)
Lemma ceil_div_bounds (n d : nat) :
  (1 <= d)%nat ->
  (n <= (n + d - 1) / d * d /\ (n + d - 1) / d * d < n + d)%nat.
Proof.
  intros Hd.
  pose proof (Nat.div_mod_eq (n + d - 1) d) as Heq.
  pose proof (Nat.mod_upper_bound (n + d - 1) d) as Hlt.
  nia.
Qed.

Lemma concat_repeat_nil (A : Type) (n : nat) : concat (repeat (@nil A) n) = [].
Proof. induction n as [|n IH]; [reflexivity | exact IH]. Qed.

Lemma Forall_repeat (A : Type) (P : A -> Prop) (x : A) (n : nat) :
  P x -> Forall P (repeat x n).
Proof. intros Hx. induction n; cbn [repeat]; constructor; assumption. Qed.

(** All pieces but the last hold [split_size] elements, the last one the
    rest. *)
Lemma split_pieces_shape (k split_size : nat) (t : Tensor) :
  (k * split_size <= length t <= S k * split_size)%nat ->
  exists (front : list Tensor) (last : Tensor),
    split_pieces (S k) split_size t = front ++ [last] /\
    length front = k /\
    Forall (fun c => length c = split_size) front /\
    length last = (length t - k * split_size)%nat /\
    concat (front ++ [last]) = t.
Proof.
  revert t. induction k as [|k IH]; intros t Hlen.
  - exists [], t. cbn [split_pieces app concat length].
    rewrite firstn_all2 by lia. rewrite app_nil_r.
    repeat split; [constructor | lia].
  - destruct (IH (skipn split_size t)) as (front & last & Heq & Hfront & Hall & Hlast & Hcat).
    { rewrite length_skipn. lia. }
    exists (firstn split_size t :: front), last.
    change (split_pieces (S (S k)) split_size t)
      with (firstn split_size t :: split_pieces (S k) split_size (skipn split_size t)).
    rewrite Heq. cbn [app concat length]. rewrite Hcat, firstn_skipn.
    repeat split.
    + congruence.
    + constructor; [rewrite length_firstn; lia | exact Hall].
    + rewrite Hlast, length_skipn. lia.
Qed.

(** What [chunk] gives for a positive count: at most [chunks] pieces, all of
    the rounded-up quotient's size but a possibly smaller last one, which
    together are the tensor. *)
Lemma chunk_shape (t : Tensor) (chunks : Z) :
  0 < chunks ->
  let size := ((length t + Z.to_nat chunks - 1) / Z.to_nat chunks)%nat in
  exists (front : list Tensor) (last : Tensor),
    chunk t chunks = Ok (front ++ [last]) /\
    (S (length front) <= Z.to_nat chunks)%nat /\
    Forall (fun c => length c = size) front /\
    (length last <= size)%nat /\
    (front = [] -> length last = size) /\
    concat (front ++ [last]) = t.
Proof.
  intros Hpos size. unfold chunk.
  replace (chunks <=? 0) with false by (symmetry; apply Z.leb_gt; exact Hpos).
  fold size.
  assert (Hn : (1 <= Z.to_nat chunks)%nat) by lia.
  destruct (ceil_div_bounds (length t) (Z.to_nat chunks) Hn) as [Hlo Hhi].
  fold size in Hlo, Hhi.
  destruct (Nat.eq_dec (length t) 0) as [Hempty|Hfull].
  - assert (Hsize : size = 0%nat) by nia.
    rewrite Hsize, Hempty. cbn [Nat.eqb andb].
    destruct (Z.to_nat chunks) as [|m] eqn:Hm; [lia|].
    exists (repeat [] m), []. cbn [repeat]. rewrite repeat_cons.
    split; [reflexivity|]. rewrite repeat_length.
    split; [lia|]. split; [apply Forall_repeat; reflexivity|].
    split; [cbn [length]; lia|]. split; [reflexivity|].
    rewrite concat_app, concat_repeat_nil.
    destruct t; [reflexivity | discriminate].
  - assert (Hsize : (1 <= size)%nat) by nia.
    replace ((size =? 0)%nat) with false by (symmetry; apply Nat.eqb_neq; lia).
    cbn [andb]. unfold split.
    destruct (ceil_div_bounds (length t) size Hsize) as [Hlo' Hhi'].
    set (q := ((length t + size - 1) / size)%nat) in *.
    assert (Hq : (1 <= q)%nat) by nia.
    replace (Nat.max q 1) with (S (q - 1)) by lia.
    destruct (split_pieces_shape (q - 1) size t) as (front & last & Heq & Hfront & Hall & Hlast & Hcat).
    { nia. }
    exists front, last. rewrite Heq.
    split; [reflexivity|]. split; [nia|]. split; [exact Hall|].
    split; [nia|]. split; [|exact Hcat].
    intros ->. cbn [length] in Hfront. nia.
Qed.

(** The loop of lines 20-21 appends one empty chunk per missing one. *)
Lemma append_empty_repeat (missing : nat) (chunks : list Tensor) :
  chunks <> [] -> append_empty missing chunks = Ok (chunks ++ repeat [] missing).
Proof.
  revert chunks. induction missing as [|m IH]; intros chunks Hne.
  - cbn [append_empty repeat]. rewrite app_nil_r. reflexivity.
  - cbn [append_empty]. destruct chunks as [|c0 rest]; [congruence|].
    rewrite getitem_head. cbn [bind].
    rewrite IH by (intros Habs; discriminate Habs).
    rewrite <- app_assoc. reflexivity.
Qed.

(** Lines 19-21 give exactly [world_size] chunks: the first of the rounded-up
    quotient's size, none larger, and together they are the tensor. *)
Lemma shard_chunks_shape (tensor : Tensor) (world_size : Z) :
  0 < world_size ->
  let size := ((length tensor + Z.to_nat world_size - 1) / Z.to_nat world_size)%nat in
  exists (c0 : Tensor) (rest : list Tensor),
    shard_chunks tensor world_size = Ok (c0 :: rest) /\
    length (c0 :: rest) = Z.to_nat world_size /\
    length c0 = size /\
    Forall (fun c => (length c <= size)%nat) (c0 :: rest) /\
    concat (c0 :: rest) = tensor.
Proof.
  intros Hpos size.
  destruct (chunk_shape tensor world_size Hpos)
    as (front & last & Hchunk & Hcount & Hall & Hlast & Hfirst & Hcat).
  fold size in Hall, Hlast, Hfirst.
  unfold shard_chunks, flatten. rewrite Hchunk. cbn [bind].
  rewrite append_empty_repeat by (destruct front; discriminate).
  set (missing := Z.to_nat (world_size - len (front ++ [last]))).
  assert (Hmissing : (length (front ++ [last]) + missing = Z.to_nat world_size)%nat).
  { subst missing. unfold len. rewrite length_app in *. cbn [length] in *. lia. }
  assert (Hbound : Forall (fun c => (length c <= size)%nat) ((front ++ [last]) ++ repeat [] missing)).
  { apply Forall_app; split; [apply Forall_app; split|].
    - eapply Forall_impl; [|exact Hall]. intros c Hc. cbn beta in Hc. lia.
    - constructor; [exact Hlast | constructor].
    - apply Forall_repeat. cbn [length]. lia. }
  assert (Hcat' : concat ((front ++ [last]) ++ repeat [] missing) = tensor).
  { rewrite concat_app, concat_repeat_nil, app_nil_r. exact Hcat. }
  assert (Hlen' : length ((front ++ [last]) ++ repeat [] missing) = Z.to_nat world_size).
  { rewrite length_app, repeat_length. exact Hmissing. }
  destruct front as [|c front].
  - exists last, (repeat [] missing).
    split; [reflexivity|]. split; [exact Hlen'|].
    split; [apply Hfirst; reflexivity|]. split; [exact Hbound | exact Hcat'].
  - exists c, ((front ++ [last]) ++ repeat [] missing).
    split; [reflexivity|]. split; [exact Hlen'|].
    split; [inversion Hall; assumption|]. split; [exact Hbound | exact Hcat'].
Qed.

(** *** get_shard, rank by rank *)

(** The value of [get_shard] at a rank of the group: the rank's chunk followed
    by the zeros that bring it to the first chunk's size, and their count. *)
Lemma get_shard_value (tensor : Tensor) (rank world_size : Z) :
  0 < world_size -> 0 <= rank < world_size ->
  let size := ((length tensor + Z.to_nat world_size - 1) / Z.to_nat world_size)%nat in
  exists (chunks : list Tensor) (c0 cr : Tensor),
    shard_chunks tensor world_size = Ok chunks /\
    length chunks = Z.to_nat world_size /\
    concat chunks = tensor /\
    getitem chunks 0 = Ok c0 /\ length c0 = size /\
    getitem chunks rank = Ok cr /\ cr = nth (Z.to_nat rank) chunks [] /\
    (length cr <= size)%nat /\
    get_shard tensor rank world_size
    = Ok (cr ++ repeat zero (size - length cr), numel c0 - numel cr).
Proof.
  intros Hpos Hrank size.
  destruct (shard_chunks_shape tensor world_size Hpos)
    as (c0 & rest & Hchunks & Hlen & Hc0 & Hbound & Hcat).
  fold size in Hc0, Hbound.
  set (chunks := c0 :: rest) in *.
  set (cr := nth (Z.to_nat rank) chunks []).
  assert (Hget : getitem chunks rank = Ok cr).
  { apply getitem_nth. unfold len. lia. }
  assert (Hcr : (length cr <= size)%nat).
  { rewrite Forall_forall in Hbound. apply Hbound. apply nth_In. lia. }
  exists chunks, c0, cr.
  split; [exact Hchunks|]. split; [exact Hlen|]. split; [exact Hcat|].
  split; [apply getitem_head|]. split; [exact Hc0|].
  split; [exact Hget|]. split; [reflexivity|]. split; [exact Hcr|].
  unfold get_shard, num_to_pad_of. rewrite Hchunks. cbn [bind].
  unfold chunks at 1. rewrite getitem_head. cbn [bind].
  rewrite Hget. cbn [bind].
  assert (Hpad : numel c0 - numel cr = Z.of_nat (size - length cr)).
  { unfold numel, len. lia. }
  rewrite Hpad.
  replace (Z.of_nat (size - length cr) >=? 0) with true
    by (symmetry; rewrite Z.geb_leb; apply Z.leb_le; lia).
  cbn [negb]. unfold clone, pad.
  destruct (Z.of_nat (size - length cr) >? 0) eqn:Hgt.
  - rewrite Nat2Z.id. reflexivity.
  - rewrite Z.gtb_ltb in Hgt. apply Z.ltb_ge in Hgt.
    replace (size - length cr)%nat with 0%nat by lia.
    cbn [repeat Z.of_nat]. rewrite app_nil_r. reflexivity.
Qed.

(** C4: for [world_size > 0] and a rank of the group, the padding amount
    [numel(chunks[0]) - numel(chunks[rank])] computed at line 24 is not
    negative, so the assertion of line 25 passes and [get_shard] returns with
    that amount as its pad count. *)
Theorem get_shard_num_to_pad_nonneg (tensor : Tensor) (rank world_size : Z) :
  0 < world_size -> 0 <= rank < world_size ->
  exists (chunks : list Tensor) (c0 cr shard : Tensor),
    shard_chunks tensor world_size = Ok chunks /\
    getitem chunks 0 = Ok c0 /\
    getitem chunks rank = Ok cr /\
    num_to_pad_of chunks rank = Ok (numel c0 - numel cr) /\
    0 <= numel c0 - numel cr /\
    get_shard tensor rank world_size = Ok (shard, numel c0 - numel cr) /\
    get_shard tensor rank world_size <> Raise AssertionError.
Proof.
  intros Hpos Hrank.
  destruct (get_shard_value tensor rank world_size Hpos Hrank)
    as (chunks & c0 & cr & Hchunks & _ & _ & Hget0 & Hc0 & Hget & _ & Hcr & Hshard).
  exists chunks, c0, cr. eexists.
  split; [exact Hchunks|]. split; [exact Hget0|]. split; [exact Hget|].
  split; [unfold num_to_pad_of; rewrite Hget0, Hget; reflexivity|].
  split; [unfold numel, len; lia|].
  split; [exact Hshard|]. rewrite Hshard. discriminate.
Qed.

(** C1: for [world_size > 0], the calls of [get_shard] for the ranks
    [0 .. world_size - 1] all return, their shards have one element count,
    and the shards' element counts less the returned pad counts add up to the
    tensor's element count. *)
Theorem get_shard_uniform_and_complete (tensor : Tensor) (world_size : Z) :
  0 < world_size ->
  exists (results : list (Tensor * Z)) (size : Z),
    get_all_shards tensor world_size = Ok results /\
    len results = world_size /\
    Forall (fun sp => numel (fst sp) = size) results /\
    sum (map (fun sp => numel (fst sp)) results) - sum (map snd results)
    = numel tensor.
Proof.
  intros Hpos.
  set (size := ((length tensor + Z.to_nat world_size - 1) / Z.to_nat world_size)%nat).
  destruct (shard_chunks_shape tensor world_size Hpos)
    as (c0 & rest & Hchunks & Hlen & Hc0 & _ & Hcat).
  fold size in Hc0. set (chunks := c0 :: rest) in *.
  set (shard_at := fun rank : Z =>
         let cr := nth (Z.to_nat rank) chunks [] in
         (cr ++ repeat zero (size - length cr), numel c0 - numel cr)).
  assert (Hall : get_all_shards tensor world_size = Ok (map shard_at (ranks world_size))).
  { unfold get_all_shards. apply mapM_map. intros rank Hin.
    unfold ranks in Hin. apply in_map_iff in Hin. destruct Hin as (i & <- & Hi).
    apply in_seq in Hi.
    destruct (get_shard_value tensor (Z.of_nat i) world_size Hpos)
      as (chunks' & c0' & cr & Hchunks' & _ & _ & Hget0 & _ & _ & Hcr & _ & Hshard); [lia|].
    fold size in Hshard. rewrite Hshard.
    rewrite Hchunks in Hchunks'. injection Hchunks' as <-.
    unfold chunks in Hget0 at 1. rewrite getitem_head in Hget0. injection Hget0 as <-.
    subst cr. reflexivity. }
  exists (map shard_at (ranks world_size)), (Z.of_nat size).
  split; [exact Hall|]. split; [|split].
  - unfold len, ranks. rewrite !length_map, length_seq. lia.
  - apply Forall_forall. intros sp Hin. apply in_map_iff in Hin.
    destruct Hin as (rank & <- & Hin).
    unfold ranks in Hin. apply in_map_iff in Hin. destruct Hin as (i & <- & Hi).
    apply in_seq in Hi. cbn [shard_at fst]. rewrite Nat2Z.id.
    assert (Hle : (length (nth i chunks []) <= size)%nat).
    { destruct (get_shard_value tensor (Z.of_nat i) world_size Hpos)
        as (chunks' & _ & cr & Hchunks' & _ & _ & _ & _ & _ & Hcr & Hle & _); [lia|].
      fold size in Hle. rewrite Hchunks in Hchunks'. injection Hchunks' as <-.
      subst cr. rewrite Nat2Z.id in Hle. exact Hle. }
    unfold numel, len. rewrite length_app, repeat_length. lia.
  - rewrite !map_map, sum_map_sub.
    rewrite (map_ext_in _ (fun rank => len (nth (Z.to_nat rank) chunks []))).
    + unfold ranks. rewrite map_map.
      rewrite (map_ext _ (fun i => len (nth i chunks []))) by (intros i; rewrite Nat2Z.id; reflexivity).
      rewrite <- Hlen, <- (map_map (fun i => nth i chunks []) len), map_nth_seq.
      rewrite <- Hcat. exact (sum_map_len_concat chunks).
    + intros rank Hin. unfold ranks in Hin. apply in_map_iff in Hin.
      destruct Hin as (i & <- & Hi). apply in_seq in Hi.
      cbn [shard_at fst snd]. rewrite Nat2Z.id.
      destruct (get_shard_value tensor (Z.of_nat i) world_size Hpos)
        as (chunks' & _ & cr & Hchunks' & _ & _ & _ & _ & _ & Hcr & Hle & _); [lia|].
      fold size in Hle. rewrite Hchunks in Hchunks'. injection Hchunks' as <-.
      subst cr. rewrite Nat2Z.id in Hle.
      unfold numel, len. rewrite length_app, repeat_length. lia.
Qed.

(** *** chunk_and_pad *)

Lemma getitem_first_app (front : list Tensor) (last : Tensor) :
  getitem (front ++ [last]) 0 = Ok (hd last front).
Proof. destruct front; cbn [app hd]; apply getitem_head. Qed.

Lemma concat_map_zeros (size : nat) (l : list nat) :
  concat (map (fun _ => repeat zero size) l) = repeat zero (length l * size).
Proof.
  induction l as [|x l IH]; [reflexivity|].
  cbn [map concat length Nat.mul]. rewrite IH, repeat_app. reflexivity.
Qed.

Lemma length_concat_uniform (size : nat) (front : list Tensor) :
  Forall (fun c => length c = size) front ->
  length (concat front) = (length front * size)%nat.
Proof.
  induction 1 as [|c front Hc _ IH]; [reflexivity|].
  cbn [concat length Nat.mul]. rewrite length_app, IH, Hc. reflexivity.
Qed.

(** C2: for [num_chunks >= 1], [chunk_and_pad] returns exactly [num_chunks]
    tensors of one element count; put end to end they are the tensor's
    elements followed by zeros only (the padding of the last real chunk and
    the zero-filled chunks). *)
Theorem chunk_and_pad_uniform (tensor : Tensor) (num_chunks : Z) :
  1 <= num_chunks ->
  exists (chunks : list Tensor) (size : Z),
    chunk_and_pad tensor num_chunks = Ok chunks /\
    len chunks = num_chunks /\
    Forall (fun c => numel c = size) chunks /\
    concat chunks = tensor ++ repeat zero (Z.to_nat (num_chunks * size - numel tensor)).
Proof.
  intros Hpos.
  set (size := ((length tensor + Z.to_nat num_chunks - 1) / Z.to_nat num_chunks)%nat).
  destruct (chunk_shape tensor num_chunks)
    as (front & last & Hchunk & Hcount & Hall & Hlast & Hfirst & Hcat); [lia|].
  fold size in Hall, Hlast, Hfirst.
  assert (Hc0 : length (hd last front) = size).
  { destruct front; [apply Hfirst; reflexivity | inversion Hall; assumption]. }
  remember (last ++ repeat zero (size - length last)) as last' eqn:Hdef.
  assert (Hlast' : length last' = size).
  { rewrite Hdef, length_app, repeat_length. lia. }
  assert (Hc0' : length (hd last' front) = size).
  { destruct front; [exact Hlast' | inversion Hall; assumption]. }
  assert (Hnumel : length tensor = (length front * size + length last)%nat).
  { rewrite <- Hcat, concat_app, length_app, (length_concat_uniform size) by exact Hall.
    cbn [concat length]. rewrite app_nil_r. reflexivity. }
  assert (Huniform : Forall (fun c => numel c = Z.of_nat size) (front ++ [last'])).
  { apply Forall_app; split.
    - eapply Forall_impl; [|exact Hall]. intros c Hc. cbn beta in Hc.
      unfold numel, len. lia.
    - constructor; [unfold numel, len; lia | constructor]. }
  assert (Hcat' : concat (front ++ [last'])
                  = tensor ++ repeat zero (size - length last)).
  { rewrite <- Hcat, !concat_app. cbn [concat]. rewrite !app_nil_r.
    rewrite Hdef, app_assoc. reflexivity. }
  unfold chunk_and_pad, flatten. rewrite Hchunk. cbn [bind].
  rewrite getitem_first_app, getitem_last. cbn [bind].
  assert (Hstep : (if numel (hd last front) - numel last >? 0
                   then setitem (front ++ [last]) (-1)
                          (pad last (numel (hd last front) - numel last))
                   else Ok (front ++ [last]))
                  = Ok (front ++ [last'])).
  { assert (Hpad : numel (hd last front) - numel last = Z.of_nat (size - length last))
      by (unfold numel, len; lia).
    rewrite Hpad.
    destruct (Z.of_nat (size - length last) >? 0) eqn:Hgt.
    - rewrite setitem_last. unfold pad. rewrite Hdef, Nat2Z.id. reflexivity.
    - rewrite Z.gtb_ltb in Hgt. apply Z.ltb_ge in Hgt. rewrite Hdef.
      replace (size - length last)%nat with 0%nat by lia.
      cbn [repeat]. rewrite app_nil_r. reflexivity. }
  rewrite Hstep. cbn [bind].
  assert (Hlen : len (front ++ [last']) = Z.of_nat (S (length front))).
  { unfold len. rewrite length_app. cbn [length]. lia. }
  destruct (len (front ++ [last']) <? num_chunks) eqn:Hlt.
  - apply Z.ltb_lt in Hlt.
    rewrite getitem_first_app. cbn [bind]. unfold zeros_like, Tensor in *. rewrite Hc0'.
    set (missing := Z.to_nat (num_chunks - len (front ++ [last']))).
    eexists. exists (Z.of_nat size). split; [reflexivity|].
    split; [|split].
    + unfold len in *. rewrite length_app, length_map, length_seq. lia.
    + apply Forall_app; split; [exact Huniform|].
      apply Forall_forall. intros c Hin. apply in_map_iff in Hin.
      destruct Hin as (_ & <- & _). unfold numel, len. rewrite repeat_length. reflexivity.
    + rewrite concat_app, Hcat', concat_map_zeros, length_seq, <- app_assoc, <- repeat_app.
      do 2 f_equal. unfold numel, len. subst missing. nia.
  - apply Z.ltb_ge in Hlt.
    exists (front ++ [last']), (Z.of_nat size). split; [reflexivity|].
    split; [lia|]. split; [exact Huniform|].
    rewrite Hcat'. do 2 f_equal. unfold numel, len. nia.
Qed.

End Sharding.

Arguments numel {elem} t.
Arguments get_shard {elem} zero tensor rank world_size.
Arguments chunk_and_pad {elem} zero tensor num_chunks.
Arguments get_all_shards {elem} zero tensor world_size.
Arguments shard_chunks {elem} tensor world_size.
Arguments num_to_pad_of {elem} chunks rank.
Arguments chunk {elem} t chunks.

(** C1 at a tensor of five elements and four ranks. *)
Lemma get_shard_uniform_and_complete_witness :
  0 < 4 /\
  exists (results : list (Tensor Z * Z)) (size : Z),
    get_all_shards 0 [1; 2; 3; 4; 5] 4 = Ok results /\
    len results = 4 /\
    Forall (fun sp => numel (fst sp) = size) results /\
    sum (map (fun sp => numel (fst sp)) results) - sum (map snd results)
    = numel [1; 2; 3; 4; 5].
Proof.
  split; [lia|].
  apply (get_shard_uniform_and_complete Z 0 [1; 2; 3; 4; 5] 4); lia.
Defined.

(** C4 at a tensor of five elements, rank 2 of 4. *)
Lemma get_shard_num_to_pad_nonneg_witness :
  0 < 4 /\ 0 <= 2 < 4 /\
  exists (chunks : list (Tensor Z)) (c0 cr shard : Tensor Z),
    shard_chunks [1; 2; 3; 4; 5] 4 = Ok chunks /\
    getitem chunks 0 = Ok c0 /\
    getitem chunks 2 = Ok cr /\
    num_to_pad_of chunks 2 = Ok (numel c0 - numel cr) /\
    0 <= numel c0 - numel cr /\
    get_shard 0 [1; 2; 3; 4; 5] 2 4 = Ok (shard, numel c0 - numel cr) /\
    get_shard 0 [1; 2; 3; 4; 5] 2 4 <> Raise AssertionError.
Proof.
  split; [lia|]. split; [lia|].
  apply (get_shard_num_to_pad_nonneg Z 0 [1; 2; 3; 4; 5] 2 4); lia.
Defined.

(** C2 at a tensor of five elements cut in four. *)
Lemma chunk_and_pad_uniform_witness :
  1 <= 4 /\
  exists (chunks : list (Tensor Z)) (size : Z),
    chunk_and_pad 0 [1; 2; 3; 4; 5] 4 = Ok chunks /\
    len chunks = 4 /\
    Forall (fun c => numel c = size) chunks /\
    concat chunks = [1; 2; 3; 4; 5] ++ repeat 0 (Z.to_nat (4 * size - numel [1; 2; 3; 4; 5])).
Proof.
  split; [lia|].
  apply (chunk_and_pad_uniform Z 0 [1; 2; 3; 4; 5] 4); lia.
Defined.

(** The chunks of five elements over four ranks, and the shard of the last
    rank. *)
Example get_shard_five_over_four :
  get_all_shards 0 [1; 2; 3; 4; 5] 4
  = Ok [([1; 2], 0); ([3; 4], 0); ([5; 0], 1); ([0; 0], 2)]
  /\ chunk_and_pad 0 [1; 2; 3; 4; 5] 4 = Ok [[1; 2]; [3; 4]; [5; 0]; [0; 0]].
Proof. split; reflexivity. Qed.

(** *** Further facts on get_shard and chunk_and_pad *)

Section IndexingFacts.

Context {A : Type}.

Lemma getitem_In (l : list A) (i : Z) (x : A) : getitem l i = Ok x -> In x l.
Proof.
  unfold getitem. destruct (list_position l i) as [n|e]; cbn [bind]; [|discriminate].
  destruct (nth_error l n) as [y|] eqn:Hn; [|discriminate].
  intros H. injection H as <-. eapply nth_error_In. exact Hn.
Qed.

Lemma getitem_out_of_range (l : list A) (i : Z) :
  len l <= i \/ i < - len l -> getitem l i = Raise IndexError.
Proof.
  intros Hi. unfold getitem, list_position.
  assert (Hlen : 0 <= len l) by (unfold len; lia).
  replace ((0 <=? i) && (i <? len l)) with false
    by (symmetry; apply andb_false_iff; destruct Hi;
        [right; apply Z.ltb_ge | left; apply Z.leb_gt]; lia).
  replace ((- len l <=? i) && (i <? 0)) with false
    by (symmetry; apply andb_false_iff; destruct Hi;
        [right; apply Z.ltb_ge | left; apply Z.leb_gt]; lia).
  reflexivity.
Qed.

(** A negative index counts from the end. *)
Lemma getitem_negative (l : list A) (i : Z) :
  - len l <= i < 0 -> getitem l i = getitem l (i + len l).
Proof.
  intros Hi. unfold getitem, list_position.
  replace ((0 <=? i) && (i <? len l)) with false
    by (symmetry; apply andb_false_iff; left; apply Z.leb_gt; lia).
  replace ((- len l <=? i) && (i <? 0)) with true
    by (symmetry; apply andb_true_iff; split; [apply Z.leb_le | apply Z.ltb_lt]; lia).
  replace ((0 <=? i + len l) && (i + len l <? len l)) with true
    by (symmetry; apply andb_true_iff; split; [apply Z.leb_le | apply Z.ltb_lt]; lia).
  rewrite Z.add_comm. reflexivity.
Qed.

End IndexingFacts.

Section ShardingFacts.

Variable elem : Type.
Variable zero : elem.

(** The size of every chunk but the last: the element count over the number
    of chunks, rounded up. *)
Definition chunk_size (tensor : Tensor elem) (world_size : Z) : nat :=
  ((length tensor + Z.to_nat world_size - 1) / Z.to_nat world_size)%nat.

(** The elements [tensor[i * size : (i + 1) * size]]. *)
Definition slice (tensor : Tensor elem) (size i : nat) : Tensor elem :=
  firstn size (skipn (i * size) tensor).

Lemma split_pieces_slices (k size : nat) (t : Tensor elem) :
  split_pieces elem k size t = map (slice t size) (seq 0 k).
Proof.
  revert t. induction k as [|k IH]; intros t; [reflexivity|].
  cbn [split_pieces seq map]. f_equal.
  rewrite IH, <- seq_shift, map_map. apply map_ext. intros i.
  unfold slice. rewrite skipn_skipn. do 2 f_equal. lia.
Qed.

Lemma slice_beyond (t : Tensor elem) (size i : nat) :
  (length t <= i * size)%nat -> slice t size i = [].
Proof.
  intros Hi. unfold slice. rewrite skipn_all2 by exact Hi. apply firstn_nil.
Qed.

Lemma repeat_nil_slices (t : Tensor elem) (size start count : nat) :
  (length t <= start * size)%nat ->
  repeat [] count = map (slice t size) (seq start count).
Proof.
  revert start. induction count as [|count IH]; intros start Hstart; [reflexivity|].
  cbn [repeat seq map]. rewrite slice_beyond by exact Hstart. f_equal.
  apply IH. nia.
Qed.

(** Lines 19-21 cut the tensor into [world_size] consecutive slices of
    [chunk_size] elements; the slices past the tensor's end are empty. *)
Lemma shard_chunks_slices (tensor : Tensor elem) (world_size : Z) :
  0 < world_size ->
  shard_chunks tensor world_size
  = Ok (map (slice tensor (chunk_size tensor world_size))
            (seq 0 (Z.to_nat world_size))).
Proof.
  intros Hpos. unfold shard_chunks, flatten, chunk.
  replace (world_size <=? 0) with false by (symmetry; apply Z.leb_gt; exact Hpos).
  fold (chunk_size tensor world_size). set (size := chunk_size tensor world_size).
  assert (Hn : (1 <= Z.to_nat world_size)%nat) by lia.
  destruct (ceil_div_bounds (length tensor) (Z.to_nat world_size) Hn) as [Hlo Hhi].
  fold (chunk_size tensor world_size) in Hlo, Hhi. fold size in Hlo, Hhi.
  destruct (Nat.eq_dec (length tensor) 0) as [Hempty|Hfull].
  - assert (Hsize : size = 0%nat) by nia.
    rewrite Hsize, Hempty. cbn [Nat.eqb andb bind].
    rewrite append_empty_repeat
      by (destruct (Z.to_nat world_size); [lia | discriminate]).
    unfold len. rewrite repeat_length.
    replace (Z.to_nat (world_size - Z.of_nat (Z.to_nat world_size))) with 0%nat by lia.
    cbn [repeat]. rewrite app_nil_r.
    apply f_equal, repeat_nil_slices. lia.
  - assert (Hsize : (1 <= size)%nat) by nia.
    replace ((size =? 0)%nat) with false by (symmetry; apply Nat.eqb_neq; lia).
    cbn [andb bind]. unfold split.
    destruct (ceil_div_bounds (length tensor) size Hsize) as [Hlo' Hhi'].
    set (q := ((length tensor + size - 1) / size)%nat) in *.
    replace (Nat.max q 1) with q by nia.
    assert (Hq : (1 <= q <= Z.to_nat world_size)%nat) by nia.
    rewrite split_pieces_slices.
    rewrite append_empty_repeat
      by (destruct q; [lia | discriminate]).
    unfold len. rewrite length_map, length_seq.
    replace (Z.to_nat (world_size - Z.of_nat q)) with (Z.to_nat world_size - q)%nat by lia.
    rewrite (repeat_nil_slices tensor size q) by lia.
    rewrite <- map_app, <- seq_app. do 3 f_equal. lia.
Qed.

(** The rank's slice has at most [chunk_size] elements, the first one
    exactly that many. *)
Lemma slice_length (tensor : Tensor elem) (world_size : Z) (i : nat) :
  0 < world_size ->
  (length (slice tensor (chunk_size tensor world_size) i) <= chunk_size tensor world_size)%nat
  /\ length (slice tensor (chunk_size tensor world_size) 0) = chunk_size tensor world_size.
Proof.
  intros Hpos. unfold slice. rewrite !length_firstn, !length_skipn.
  assert (Hn : (1 <= Z.to_nat world_size)%nat) by lia.
  destruct (ceil_div_bounds (length tensor) (Z.to_nat world_size) Hn) as [Hlo Hhi].
  fold (chunk_size tensor world_size) in Hlo, Hhi.
  split; [lia|]. cbn [Nat.mul]. nia.
Qed.

(** What [get_shard] computes from the chunks once they are known. *)
Lemma get_shard_from_chunks (tensor : Tensor elem) (rank world_size : Z)
    (c0 : Tensor elem) (rest : list (Tensor elem)) :
  shard_chunks tensor world_size = Ok (c0 :: rest) ->
  Forall (fun c => (length c <= length c0)%nat) (c0 :: rest) ->
  get_shard zero tensor rank world_size
  = (cr <- getitem (c0 :: rest) rank ;;
     Ok (cr ++ repeat zero (length c0 - length cr), numel c0 - numel cr)).
Proof.
  intros Hchunks Hbound. unfold get_shard, num_to_pad_of.
  rewrite Hchunks. cbn [bind]. rewrite getitem_head. cbn [bind].
  destruct (getitem (c0 :: rest) rank) as [cr|e] eqn:Hget; cbn [bind]; [|reflexivity].
  assert (Hcr : (length cr <= length c0)%nat).
  { rewrite Forall_forall in Hbound. apply Hbound. eapply getitem_In. exact Hget. }
  assert (Hpad : numel c0 - numel cr = Z.of_nat (length c0 - length cr))
    by (unfold numel, len; lia).
  rewrite Hpad.
  replace (Z.of_nat (length c0 - length cr) >=? 0) with true
    by (symmetry; rewrite Z.geb_leb; apply Z.leb_le; lia).
  cbn [negb]. unfold clone, pad.
  destruct (Z.of_nat (length c0 - length cr) >? 0) eqn:Hgt.
  - rewrite Nat2Z.id. reflexivity.
  - rewrite Z.gtb_ltb in Hgt. apply Z.ltb_ge in Hgt.
    replace (length c0 - length cr)%nat with 0%nat by lia.
    cbn [repeat]. rewrite app_nil_r. reflexivity.
Qed.

(** The chunks of a positive [world_size], first chunk apart, with what
    [get_shard] needs of them. *)
Lemma shard_chunks_first (tensor : Tensor elem) (world_size : Z) :
  0 < world_size ->
  exists (c0 : Tensor elem) (rest : list (Tensor elem)),
    shard_chunks tensor world_size = Ok (c0 :: rest) /\
    c0 :: rest = map (slice tensor (chunk_size tensor world_size))
                     (seq 0 (Z.to_nat world_size)) /\
    length c0 = chunk_size tensor world_size /\
    Forall (fun c => (length c <= length c0)%nat) (c0 :: rest).
Proof.
  intros Hpos. rewrite (shard_chunks_slices tensor world_size Hpos).
  destruct (Z.to_nat world_size) as [|n] eqn:Hn; [lia|].
  cbn [seq map]. eexists. eexists. split; [reflexivity|]. split; [reflexivity|].
  destruct (slice_length tensor world_size 0 Hpos) as [_ Hfirst].
  split; [exact Hfirst|].
  rewrite Hfirst. constructor; [lia|].
  apply Forall_forall. intros c Hin. apply in_map_iff in Hin.
  destruct Hin as (i & <- & _). apply (slice_length tensor world_size i Hpos).
Qed.

(** The rank's slice padded with zeros to [chunk_size], and the number of
    zeros. *)
Definition padded_slice (tensor : Tensor elem) (world_size : Z) (i : nat)
  : Tensor elem * Z :=
  let size := chunk_size tensor world_size in
  let sl := slice tensor size i in
  (sl ++ repeat zero (size - length sl), Z.of_nat (size - length sl)).

Lemma get_shard_at (tensor : Tensor elem) (world_size : Z) (i : nat) :
  0 < world_size -> (i < Z.to_nat world_size)%nat ->
  get_shard zero tensor (Z.of_nat i) world_size
  = Ok (padded_slice tensor world_size i).
Proof.
  intros Hpos Hi.
  destruct (shard_chunks_first tensor world_size Hpos)
    as (c0 & rest & Hchunks & Heq & Hfirst & Hbound).
  rewrite (get_shard_from_chunks tensor _ world_size c0 rest Hchunks Hbound).
  rewrite Heq.
  rewrite (getitem_nth _ _ (slice tensor (chunk_size tensor world_size) 0))
    by (unfold len; rewrite length_map, length_seq; lia).
  rewrite map_nth, Nat2Z.id, seq_nth by exact Hi. cbn [bind Nat.add].
  unfold padded_slice. rewrite Hfirst.
  destruct (slice_length tensor world_size i Hpos) as [Hle _].
  do 2 f_equal. unfold numel, len. lia.
Qed.

Lemma get_all_shards_slices (tensor : Tensor elem) (world_size : Z) :
  0 < world_size ->
  get_all_shards zero tensor world_size
  = Ok (map (padded_slice tensor world_size) (seq 0 (Z.to_nat world_size))).
Proof.
  intros Hpos. unfold get_all_shards, ranks.
  rewrite (mapM_map _ (fun rank => padded_slice tensor world_size (Z.to_nat rank))).
  - rewrite map_map. f_equal. apply map_ext. intros i. rewrite Nat2Z.id. reflexivity.
  - intros rank Hin. apply in_map_iff in Hin. destruct Hin as (i & <- & Hi).
    apply in_seq in Hi. rewrite Nat2Z.id. apply get_shard_at; [exact Hpos | lia].
Qed.

(** The slices of a positive [world_size], end to end, are the tensor. *)
Lemma concat_slices (tensor : Tensor elem) (world_size : Z) :
  0 < world_size ->
  concat (map (slice tensor (chunk_size tensor world_size))
              (seq 0 (Z.to_nat world_size))) = tensor.
Proof.
  intros Hpos.
  destruct (shard_chunks_shape elem tensor world_size Hpos)
    as (c0 & rest & Hchunks & _ & _ & _ & Hcat).
  rewrite (shard_chunks_slices tensor world_size Hpos) in Hchunks.
  injection Hchunks as Heq. rewrite Heq. exact Hcat.
Qed.

Lemma getitem_raises (A : Type) (l : list A) (i : Z) (e : exn) :
  getitem l i = Raise e -> e = IndexError.
Proof.
  unfold getitem, list_position.
  destruct ((0 <=? i) && (i <? len l)); cbn [bind].
  - destruct (nth_error l (Z.to_nat i)); congruence.
  - destruct ((- len l <=? i) && (i <? 0)); cbn [bind]; [|congruence].
    destruct (nth_error l (Z.to_nat (len l + i))); congruence.
Qed.

(** X4: the shard of a rank of the group is the slice
    [tensor[rank * size : (rank + 1) * size]] of the flattened tensor, with
    [size] the element count over [world_size] rounded up, followed by as
    many zeros as the slice is short of [size]; when [world_size] divides
    the element count the shard is the slice itself and the pad count is 0. *)
Theorem get_shard_slice (tensor : Tensor elem) (rank world_size : Z) :
  0 < world_size -> 0 <= rank < world_size ->
  let size := chunk_size tensor world_size in
  let sl := slice tensor size (Z.to_nat rank) in
  get_shard zero tensor rank world_size
  = Ok (sl ++ repeat zero (size - length sl), Z.of_nat (size - length sl))
  /\ (numel tensor mod world_size = 0 ->
      get_shard zero tensor rank world_size = Ok (sl, 0)).
Proof.
  intros Hpos Hrank size sl.
  assert (Hvalue : get_shard zero tensor rank world_size
                   = Ok (sl ++ repeat zero (size - length sl), Z.of_nat (size - length sl))).
  { rewrite <- (Z2Nat.id rank) at 1 by lia.
    rewrite get_shard_at by lia. reflexivity. }
  split; [exact Hvalue|].
  intros Hdiv. rewrite Hvalue.
  assert (Hfull : length sl = size).
  { subst sl. unfold slice. rewrite length_firstn, length_skipn.
    assert (Hn : (1 <= Z.to_nat world_size)%nat) by lia.
    destruct (ceil_div_bounds (length tensor) (Z.to_nat world_size) Hn) as [Hlo Hhi].
    fold (chunk_size tensor world_size) in Hlo, Hhi. fold size in Hlo, Hhi.
    apply Z.mod_divide in Hdiv; [|lia]. destruct Hdiv as [q Hq].
    unfold numel, len in Hq.
    assert (Hqs : q = Z.of_nat size) by nia.
    nia. }
  rewrite Hfull, Nat.sub_diag. cbn [repeat Z.of_nat]. rewrite app_nil_r. reflexivity.
Qed.

(** X5: a negative rank from [-world_size] on counts from the last rank:
    [get_shard] gives what it gives for [rank + world_size]. *)
Theorem get_shard_negative_rank (tensor : Tensor elem) (rank world_size : Z) :
  0 < world_size -> - world_size <= rank < 0 ->
  get_shard zero tensor rank world_size
  = get_shard zero tensor (rank + world_size) world_size.
Proof.
  intros Hpos Hrank.
  destruct (shard_chunks_first tensor world_size Hpos)
    as (c0 & rest & Hchunks & Heq & _ & Hbound).
  rewrite !(get_shard_from_chunks tensor _ world_size c0 rest Hchunks Hbound).
  assert (Hlen : len (c0 :: rest) = world_size).
  { rewrite Heq. unfold len. rewrite length_map, length_seq. lia. }
  rewrite getitem_negative by lia. rewrite Hlen. reflexivity.
Qed.

(** X6: for a positive [world_size], a rank from [world_size] on or below
    [-world_size] raises an IndexError. *)
Theorem get_shard_rank_out_of_range (tensor : Tensor elem) (rank world_size : Z) :
  0 < world_size -> world_size <= rank \/ rank < - world_size ->
  get_shard zero tensor rank world_size = Raise IndexError.
Proof.
  intros Hpos Hrank.
  destruct (shard_chunks_first tensor world_size Hpos)
    as (c0 & rest & Hchunks & Heq & _ & Hbound).
  rewrite (get_shard_from_chunks tensor _ world_size c0 rest Hchunks Hbound).
  assert (Hlen : len (c0 :: rest) = world_size).
  { rewrite Heq. unfold len. rewrite length_map, length_seq. lia. }
  rewrite getitem_out_of_range by lia. reflexivity.
Qed.

(** X7: whatever the tensor, the rank and the world size, [get_shard] does
    not raise the AssertionError of line 25. *)
Theorem get_shard_never_asserts (tensor : Tensor elem) (rank world_size : Z) :
  get_shard zero tensor rank world_size <> Raise AssertionError.
Proof.
  destruct (Z_lt_le_dec 0 world_size) as [Hpos|Hneg].
  - destruct (shard_chunks_first tensor world_size Hpos)
      as (c0 & rest & Hchunks & _ & _ & Hbound).
    rewrite (get_shard_from_chunks tensor _ world_size c0 rest Hchunks Hbound).
    destruct (getitem (c0 :: rest) rank) as [cr|e] eqn:Hget; cbn [bind]; [discriminate|].
    apply getitem_raises in Hget. subst e. discriminate.
  - unfold get_shard, shard_chunks, chunk.
    replace (world_size <=? 0) with true by (symmetry; apply Z.leb_le; exact Hneg).
    cbn [bind]. discriminate.
Qed.

(** X8: for a positive [world_size], the shards of all ranks, each cut back
    by its pad count and put end to end in rank order, are the flattened
    tensor; what is cut off each shard is zeros only. *)
Theorem get_shard_unpad_roundtrip (tensor : Tensor elem) (world_size : Z) :
  0 < world_size ->
  exists results : list (Tensor elem * Z),
    get_all_shards zero tensor world_size = Ok results /\
    concat (map (fun sp => firstn (Z.to_nat (numel (fst sp) - snd sp)) (fst sp)) results)
    = tensor /\
    Forall (fun sp => skipn (Z.to_nat (numel (fst sp) - snd sp)) (fst sp)
                      = repeat zero (Z.to_nat (snd sp))) results.
Proof.
  intros Hpos. eexists. split; [apply get_all_shards_slices; exact Hpos|].
  assert (Hkeep : forall i,
            Z.to_nat (numel (fst (padded_slice tensor world_size i))
                      - snd (padded_slice tensor world_size i))
            = length (slice tensor (chunk_size tensor world_size) i)).
  { intros i. unfold padded_slice. cbn [fst snd]. unfold numel, len.
    rewrite length_app, repeat_length.
    destruct (slice_length tensor world_size i Hpos) as [Hle _]. lia. }
  split.
  - rewrite map_map.
    rewrite (map_ext _ (slice tensor (chunk_size tensor world_size))).
    + apply concat_slices. exact Hpos.
    + intros i. rewrite Hkeep. unfold padded_slice. cbn [fst].
      rewrite firstn_app, firstn_all, Nat.sub_diag, firstn_O, app_nil_r. reflexivity.
  - apply Forall_forall. intros sp Hin. apply in_map_iff in Hin.
    destruct Hin as (i & <- & _). rewrite Hkeep. unfold padded_slice. cbn [fst snd].
    rewrite skipn_app, skipn_all, Nat.sub_diag, Nat2Z.id. reflexivity.
Qed.

Lemma sum_map_const (A : Type) (c : Z) (l : list A) :
  sum (map (fun _ => c) l) = len l * c.
Proof.
  unfold sum, len. induction l as [|x l IH]; [reflexivity|].
  cbn [map fold_right length]. rewrite IH. lia.
Qed.

(** X9: for a positive [world_size] every shard has
    [(numel + world_size - 1) // world_size] elements, and the pad counts of
    all ranks add up to [world_size] times that, less the tensor's element
    count, which is less than [world_size]. *)
Theorem get_shard_total_padding (tensor : Tensor elem) (world_size : Z) :
  0 < world_size ->
  exists results : list (Tensor elem * Z),
    get_all_shards zero tensor world_size = Ok results /\
    Forall (fun sp => numel (fst sp) = (numel tensor + world_size - 1) / world_size)
           results /\
    sum (map snd results)
    = world_size * ((numel tensor + world_size - 1) / world_size) - numel tensor /\
    0 <= sum (map snd results) < world_size.
Proof.
  intros Hpos. eexists. split; [apply get_all_shards_slices; exact Hpos|].
  set (size := chunk_size tensor world_size).
  assert (Hn : (1 <= Z.to_nat world_size)%nat) by lia.
  destruct (ceil_div_bounds (length tensor) (Z.to_nat world_size) Hn) as [Hlo Hhi].
  fold (chunk_size tensor world_size) in Hlo, Hhi. fold size in Hlo, Hhi.
  assert (Hsize : (numel tensor + world_size - 1) / world_size = Z.of_nat size).
  { subst size. unfold chunk_size, numel, len.
    rewrite Nat2Z.inj_div, Nat2Z.inj_sub, Nat2Z.inj_add, Z2Nat.id by lia.
    reflexivity. }
  rewrite Hsize.
  assert (Hsum : sum (map snd (map (padded_slice tensor world_size)
                                    (seq 0 (Z.to_nat world_size))))
                 = world_size * Z.of_nat size - numel tensor).
  { rewrite map_map.
    rewrite (map_ext _ (fun i => Z.of_nat size - len (slice tensor size i))).
    - rewrite <- (sum_map_sub (fun _ => Z.of_nat size) (fun i => len (slice tensor size i))).
      rewrite sum_map_const. unfold len at 1. rewrite length_seq.
      rewrite <- (map_map (slice tensor size) len).
      rewrite sum_map_len_concat. subst size. rewrite concat_slices by exact Hpos.
      unfold numel. lia.
    - intros i. unfold padded_slice. cbn [snd]. fold size.
      destruct (slice_length tensor world_size i Hpos) as [Hle _]. fold size in Hle.
      unfold len. lia. }
  split; [|split].
  - apply Forall_forall. intros sp Hin. apply in_map_iff in Hin.
    destruct Hin as (i & <- & _). unfold padded_slice. cbn [fst]. fold size.
    destruct (slice_length tensor world_size i Hpos) as [Hle _]. fold size in Hle.
    unfold numel, len. rewrite length_app, repeat_length. lia.
  - exact Hsum.
  - rewrite Hsum. unfold numel, len. nia.
Qed.

Lemma map_const_seq (A : Type) (x : A) (start count : nat) :
  map (fun _ => x) (seq start count) = repeat x count.
Proof.
  revert start. induction count as [|count IH]; intros start; [reflexivity|].
  cbn [seq map repeat]. rewrite IH. reflexivity.
Qed.

Lemma map_pad_full (size : nat) (front : list (Tensor elem)) :
  Forall (fun c => length c = size) front ->
  map (fun c => c ++ repeat zero (size - length c)) front = front.
Proof.
  induction 1 as [|c front Hc _ IH]; [reflexivity|].
  cbn [map]. rewrite IH, Hc, Nat.sub_diag. cbn [repeat]. rewrite app_nil_r. reflexivity.
Qed.

(** What [chunk_and_pad] makes of the chunks of the library. *)
Lemma chunk_and_pad_from_chunks (tensor : Tensor elem) (num_chunks : Z) (size : nat)
    (front : list (Tensor elem)) (last : Tensor elem) :
  chunk tensor num_chunks = Ok (front ++ [last]) ->
  Forall (fun c => length c = size) front ->
  (length last <= size)%nat ->
  (front = [] -> length last = size) ->
  chunk_and_pad zero tensor num_chunks
  = Ok (front ++ [last ++ repeat zero (size - length last)]
          ++ repeat (repeat zero size)
                    (Z.to_nat (num_chunks - len (front ++ [last])))).
Proof.
  intros Hchunk Hall Hlast Hfirst.
  assert (Hc0 : length (hd last front) = size).
  { destruct front; [apply Hfirst; reflexivity | inversion Hall; assumption]. }
  remember (last ++ repeat zero (size - length last)) as last' eqn:Hdef.
  assert (Hlast' : length last' = size).
  { rewrite Hdef, length_app, repeat_length. lia. }
  assert (Hc0' : length (hd last' front) = size).
  { destruct front; [exact Hlast' | inversion Hall; assumption]. }
  unfold chunk_and_pad, flatten. rewrite Hchunk. cbn [bind].
  rewrite getitem_first_app, getitem_last. cbn [bind].
  assert (Hstep : (if numel (hd last front) - numel last >? 0
                   then setitem (front ++ [last]) (-1)
                          (pad elem zero last (numel (hd last front) - numel last))
                   else Ok (front ++ [last]))
                  = Ok (front ++ [last'])).
  { assert (Hpad : numel (hd last front) - numel last = Z.of_nat (size - length last))
      by (unfold numel, len; lia).
    rewrite Hpad.
    destruct (Z.of_nat (size - length last) >? 0) eqn:Hgt.
    - rewrite setitem_last. unfold pad. rewrite Hdef, Nat2Z.id. reflexivity.
    - rewrite Z.gtb_ltb in Hgt. apply Z.ltb_ge in Hgt. rewrite Hdef.
      replace (size - length last)%nat with 0%nat by lia.
      cbn [repeat]. rewrite app_nil_r. reflexivity. }
  rewrite Hstep. cbn [bind].
  assert (Hlen : len (front ++ [last']) = len (front ++ [last])).
  { unfold len. rewrite !length_app. reflexivity. }
  rewrite Hlen.
  destruct (len (front ++ [last]) <? num_chunks) eqn:Hlt.
  - rewrite getitem_first_app. cbn [bind]. unfold zeros_like, Tensor in *.
    rewrite Hc0', map_const_seq, <- app_assoc. reflexivity.
  - apply Z.ltb_ge in Hlt.
    replace (Z.to_nat (num_chunks - len (front ++ [last]))) with 0%nat by lia.
    cbn [repeat]. rewrite app_nil_r. reflexivity.
Qed.

(** X10: for [num_chunks >= 1], [chunk_and_pad] returns, in rank order, the
    shards [get_shard] returns for the ranks [0 .. num_chunks - 1]. *)
Theorem chunk_and_pad_get_shard (tensor : Tensor elem) (num_chunks : Z) :
  1 <= num_chunks ->
  exists results : list (Tensor elem * Z),
    get_all_shards zero tensor num_chunks = Ok results /\
    chunk_and_pad zero tensor num_chunks = Ok (map fst results).
Proof.
  intros Hpos. assert (Hpos' : 0 < num_chunks) by lia.
  eexists. split; [apply get_all_shards_slices; exact Hpos'|].
  set (size := chunk_size tensor num_chunks).
  destruct (chunk_shape elem tensor num_chunks Hpos')
    as (front & last & Hchunk & Hcount & Hall & Hlast & Hfirst & _).
  fold (chunk_size tensor num_chunks) in Hall, Hlast, Hfirst.
  fold size in Hall, Hlast, Hfirst.
  rewrite (chunk_and_pad_from_chunks tensor num_chunks size front last
             Hchunk Hall Hlast Hfirst).
  pose proof (shard_chunks_slices tensor num_chunks Hpos') as Hslices.
  unfold shard_chunks, flatten in Hslices. rewrite Hchunk in Hslices.
  cbn [bind] in Hslices.
  rewrite append_empty_repeat in Hslices by (destruct front; discriminate).
  injection Hslices as Hslices. fold size in Hslices.
  rewrite map_map.
  rewrite (map_ext _ (fun i => (fun c => c ++ repeat zero (size - length c))
                                 (slice tensor size i)))
    by (intros i; reflexivity).
  rewrite <- (map_map (slice tensor size) (fun c => c ++ repeat zero (size - length c))).
  rewrite <- Hslices, !map_app, map_pad_full by exact Hall.
  cbn [map]. rewrite map_repeat, <- app_assoc. cbn [length].
  rewrite Nat.sub_0_r. reflexivity.
Qed.

End ShardingFacts.

Arguments chunk_size {elem} tensor world_size.
Arguments slice {elem} tensor size i.
Arguments padded_slice {elem} zero tensor world_size i.

(** X4 at four elements over two ranks, rank 1. *)
Lemma get_shard_slice_witness :
  0 < 2 /\ 0 <= 1 < 2 /\ numel [1; 2; 3; 4] mod 2 = 0 /\
  get_shard 0 [1; 2; 3; 4] 1 2 = Ok ([3; 4], 0).
Proof.
  assert (Hpos : 0 < 2) by lia.
  assert (Hrank : 0 <= 1 < 2) by lia.
  split; [exact Hpos|]. split; [exact Hrank|]. split; [reflexivity|].
  exact (proj2 (get_shard_slice Z 0 [1; 2; 3; 4] 1 2 Hpos Hrank) eq_refl).
Defined.

(** X5 at five elements over four ranks, rank -1. *)
Lemma get_shard_negative_rank_witness :
  0 < 4 /\ - 4 <= -1 < 0 /\
  get_shard 0 [1; 2; 3; 4; 5] (-1) 4 = get_shard 0 [1; 2; 3; 4; 5] (-1 + 4) 4.
Proof.
  split; [lia|]. split; [lia|].
  apply (get_shard_negative_rank Z 0 [1; 2; 3; 4; 5] (-1) 4); lia.
Defined.

(** X6 at five elements over four ranks, rank 4. *)
Lemma get_shard_rank_out_of_range_witness :
  0 < 4 /\ (4 <= 4 \/ 4 < - 4) /\
  get_shard 0 [1; 2; 3; 4; 5] 4 4 = Raise IndexError.
Proof.
  split; [lia|]. split; [left; lia|].
  apply (get_shard_rank_out_of_range Z 0 [1; 2; 3; 4; 5] 4 4); lia.
Defined.

(** X8 at five elements over four ranks. *)
Lemma get_shard_unpad_roundtrip_witness :
  0 < 4 /\
  exists results : list (Tensor Z * Z),
    get_all_shards 0 [1; 2; 3; 4; 5] 4 = Ok results /\
    concat (map (fun sp => firstn (Z.to_nat (numel (fst sp) - snd sp)) (fst sp)) results)
    = [1; 2; 3; 4; 5] /\
    Forall (fun sp => skipn (Z.to_nat (numel (fst sp) - snd sp)) (fst sp)
                      = repeat 0 (Z.to_nat (snd sp))) results.
Proof.
  split; [lia|].
  apply (get_shard_unpad_roundtrip Z 0 [1; 2; 3; 4; 5] 4); lia.
Defined.

(** X9 at five elements over four ranks. *)
Lemma get_shard_total_padding_witness :
  0 < 4 /\
  exists results : list (Tensor Z * Z),
    get_all_shards 0 [1; 2; 3; 4; 5] 4 = Ok results /\
    Forall (fun sp => numel (fst sp) = (numel [1; 2; 3; 4; 5] + 4 - 1) / 4) results /\
    sum (map snd results)
    = 4 * ((numel [1; 2; 3; 4; 5] + 4 - 1) / 4) - numel [1; 2; 3; 4; 5] /\
    0 <= sum (map snd results) < 4.
Proof.
  split; [lia|].
  apply (get_shard_total_padding Z 0 [1; 2; 3; 4; 5] 4); lia.
Defined.

(** X10 at five elements cut in four. *)
Lemma chunk_and_pad_get_shard_witness :
  1 <= 4 /\
  exists results : list (Tensor Z * Z),
    get_all_shards 0 [1; 2; 3; 4; 5] 4 = Ok results /\
    chunk_and_pad 0 [1; 2; 3; 4; 5] 4 = Ok (map fst results).
Proof.
  split; [lia|].
  apply (chunk_and_pad_get_shard Z 0 [1; 2; 3; 4; 5] 4); lia.
Defined.

End Shard.

Module Storage.

(** ** free_storage and alloc_storage *)

(** A storage is named by a handle; several tensors can hold the same one. *)
Definition handle : Type := nat.

(** What the two helpers read of a tensor: the storage it views and the
    offset of its first element in it. *)
Record Tensor : Type := mkTensor {
  storage : handle;
  storage_offset : Z
}.

(** The storages of the process: the element count ([storage().size()]) of
    each. *)
Definition Store : Type := handle -> Z.

(** [storage.resize_(n)] on the storage [h]: a negative count is refused
    with a RuntimeError and the storage keeps its elements. *)
Definition resize_ (st : Store) (h : handle) (n : Z) : option exn * Store :=
  if n <? 0 then (Some RuntimeError, st)
  else (None, fun h' => if Nat.eqb h h' then n else st h').

(** A signed 64-bit integer after an overflowing operation. *)
Definition wrap_int64 (x : Z) : Z := (x + 2 ^ 63) mod 2 ^ 64 - 2 ^ 63.

(** [size.numel()] of a [torch.Size]: the product of its entries, taken from
    the first on in signed 64-bit arithmetic. *)
Definition size_numel (size : list Z) : Z :=
  fold_left (fun acc d => wrap_int64 (acc * d)) size 1.

(** Lines 33-39: the exception raised, if any, and the storages after the
    call. *)
Definition free_storage (data : Tensor) (st : Store) : option exn * Store :=
  if st (storage data) >? 0 then
    if storage_offset data =? 0
    then resize_ st (storage data) 0
    else (Some AssertionError, st)
  else (None, st).

(** Lines 42-48. *)
Definition alloc_storage (data : Tensor) (size : list Z) (st : Store) : option exn * Store :=
  if st (storage data) =? size_numel size then (None, st)
  else if st (storage data) =? 0
       then resize_ st (storage data) (size_numel size)
       else (Some AssertionError, st).

(** [data] is the sole occupant of its storage: it starts at offset zero and
    none of the other live tensors views the same storage. *)
Definition sole_occupant (others : list Tensor) (data : Tensor) : Prop :=
  storage_offset data = 0 /\
  Forall (fun t => storage t <> storage data) others.

(** A tensor of four elements and a view of it from its first element on
    ([view_tensor = base_tensor.view(-1)]): one storage, both at offset
    zero. *)
Definition base_tensor : Tensor := mkTensor 0%nat 0.
Definition view_tensor : Tensor := mkTensor 0%nat 0.
Definition shared_store : Store := fun _ => 4.

(** The storages of a process in which every storage is empty. *)
Definition empty_store : Store := fun _ => 0.

(** A storage holds the given element count after [resize_] to a count that
    is not negative, and the other storages keep theirs. *)
Lemma resize_spec (st : Store) (h : handle) (n : Z) :
  0 <= n ->
  exists st',
    resize_ st h n = (None, st') /\
    st' h = n /\ forall h', h' <> h -> st' h' = st h'.
Proof.
  intros Hn. unfold resize_.
  replace (n <? 0) with false by (symmetry; apply Z.ltb_ge; exact Hn).
  eexists. split; [reflexivity|]. split.
  - cbn. rewrite Nat.eqb_refl. reflexivity.
  - intros h' Hne. cbn. destruct (Nat.eqb_spec h h') as [->|_]; [congruence | reflexivity].
Qed.

(** [resize_] to a negative count raises and changes nothing. *)
Lemma resize_negative (st : Store) (h : handle) (n : Z) :
  n < 0 -> resize_ st h n = (Some RuntimeError, st).
Proof.
  intros Hn. unfold resize_. apply Z.ltb_lt in Hn. rewrite Hn. reflexivity.
Qed.

(** Whatever the count, [resize_] leaves the other storages alone, and
    leaves them all alone when it raises. *)
Lemma resize_frame (st : Store) (h : handle) (n : Z) :
  (forall h', h' <> h -> snd (resize_ st h n) h' = st h') /\
  (fst (resize_ st h n) <> None -> snd (resize_ st h n) = st).
Proof.
  unfold resize_. destruct (n <? 0); cbn [fst snd]; split;
    try reflexivity; try congruence.
  intros h' Hne. destruct (Nat.eqb_spec h h') as [->|_]; [congruence | reflexivity].
Qed.

(** The storage named holds the count asked for when [resize_] returns. *)
Lemma resize_returns (st : Store) (h : handle) (n : Z) :
  fst (resize_ st h n) = None -> snd (resize_ st h n) h = n.
Proof.
  unfold resize_. destruct (n <? 0); cbn [fst snd]; [discriminate|].
  intros _. rewrite Nat.eqb_refl. reflexivity.
Qed.

(** C8, amended: [alloc_storage] leaves the storages as they are when the
    tensor's storage already holds [size.numel()] elements; otherwise it
    raises an AssertionError, changing nothing, when that storage is not
    empty; when it is empty it resizes it to [size.numel()] elements, the
    other storages untouched, if [size.numel()] is not negative, and raises a
    RuntimeError, the storage still empty, if it is negative. *)
Theorem alloc_storage_spec (data : Tensor) (size : list Z) (st : Store) :
  (st (storage data) = size_numel size ->
     alloc_storage data size st = (None, st)) /\
  (st (storage data) <> size_numel size -> st (storage data) <> 0 ->
     alloc_storage data size st = (Some AssertionError, st)) /\
  (st (storage data) <> size_numel size -> st (storage data) = 0 ->
     0 <= size_numel size ->
     exists st',
       alloc_storage data size st = (None, st') /\
       st' (storage data) = size_numel size /\
       forall h, h <> storage data -> st' h = st h) /\
  (st (storage data) = 0 -> size_numel size < 0 ->
     alloc_storage data size st = (Some RuntimeError, st)).
Proof.
  unfold alloc_storage. repeat split.
  - intros Heq. apply Z.eqb_eq in Heq. rewrite Heq. reflexivity.
  - intros Hne Hfull. apply Z.eqb_neq in Hne, Hfull. rewrite Hne, Hfull. reflexivity.
  - intros Hne Hempty Hpos. apply Z.eqb_neq in Hne. pose proof Hempty as Hz.
    apply Z.eqb_eq in Hz. rewrite Hne, Hz.
    apply resize_spec. exact Hpos.
  - intros Hempty Hneg.
    replace (st (storage data) =? size_numel size) with false
      by (symmetry; apply Z.eqb_neq; lia).
    pose proof Hempty as Hz. apply Z.eqb_eq in Hz. rewrite Hz.
    apply resize_negative. exact Hneg.
Qed.

(** C8 as worded fails at [torch.Size([-1])], whose element count is -1: on
    an empty storage the third case applies, and the call raises a
    RuntimeError instead of returning with the storage resized. *)
Lemma alloc_storage_negative_size :
  empty_store (storage view_tensor) <> size_numel [-1] /\
  empty_store (storage view_tensor) = 0 /\
  alloc_storage view_tensor [-1] empty_store = (Some RuntimeError, empty_store) /\
  ~ (exists st',
       alloc_storage view_tensor [-1] empty_store = (None, st') /\
       st' (storage view_tensor) = size_numel [-1]).
Proof.
  split; [vm_compute; discriminate|].
  split; [reflexivity|].
  split; [reflexivity|].
  intros (st' & Hcall & _). vm_compute in Hcall. discriminate.
Qed.

(** [size.numel()] wraps around: a size of 2^32 by 2^32 counts zero
    elements, so that [alloc_storage] finds an empty storage allocated. *)
Example alloc_storage_wrapped_size :
  size_numel [2 ^ 32; 2 ^ 32] = 0 /\
  alloc_storage view_tensor [2 ^ 32; 2 ^ 32] empty_store = (None, empty_store).
Proof. split; reflexivity. Qed.

(** [free_storage] resizes the tensor's storage to zero, the other storages
    untouched, when that storage is not empty and the tensor sits at offset
    zero in it; it raises an AssertionError, changing nothing, when the
    storage is not empty and the offset is not zero; and it returns with
    nothing changed when the storage is already empty. *)
Lemma free_storage_spec (data : Tensor) (st : Store) :
  (0 < st (storage data) -> storage_offset data = 0 ->
     exists st',
       free_storage data st = (None, st') /\
       st' (storage data) = 0 /\
       forall h, h <> storage data -> st' h = st h) /\
  (0 < st (storage data) -> storage_offset data <> 0 ->
     free_storage data st = (Some AssertionError, st)) /\
  (st (storage data) <= 0 -> free_storage data st = (None, st)).
Proof.
  unfold free_storage. repeat split.
  - intros Hfull Hoff. apply Z.gtb_lt in Hfull. apply Z.eqb_eq in Hoff.
    rewrite Hfull, Hoff. apply resize_spec. lia.
  - intros Hfull Hoff. apply Z.gtb_lt in Hfull. apply Z.eqb_neq in Hoff.
    rewrite Hfull, Hoff. reflexivity.
  - intros Hempty. rewrite Z.gtb_ltb.
    replace (0 <? st (storage data)) with false by (symmetry; apply Z.ltb_ge; exact Hempty).
    reflexivity.
Qed.

(** C9 at a shared storage: [view_tensor] is not the sole occupant of its
    storage, which holds four elements, yet [free_storage] raises nothing and
    empties the storage under [base_tensor] as well.  The assertion of line
    38 tests the offset only. *)
Theorem free_storage_shared_storage :
  ~ sole_occupant [base_tensor] view_tensor /\
  0 < shared_store (storage view_tensor) /\
  fst (free_storage view_tensor shared_store) = None /\
  snd (free_storage view_tensor shared_store) (storage base_tensor) = 0.
Proof.
  split; [|repeat split; reflexivity].
  intros [_ Hothers]. inversion Hothers as [|t l Hne _]; subst.
  apply Hne. reflexivity.
Qed.

(** *** Further facts on the storage helpers *)

(** X11: neither helper touches a storage other than the tensor's, and a
    call that raises leaves every storage as it was. *)
Theorem storage_helpers_frame (data : Tensor) (size : list Z) (st : Store) :
  (forall h, h <> storage data ->
     snd (free_storage data st) h = st h /\
     snd (alloc_storage data size st) h = st h) /\
  (fst (free_storage data st) <> None -> snd (free_storage data st) = st) /\
  (fst (alloc_storage data size st) <> None -> snd (alloc_storage data size st) = st).
Proof.
  unfold free_storage, alloc_storage. split; [|split].
  - intros h Hne. split.
    + destruct (st (storage data) >? 0); [|reflexivity].
      destruct (storage_offset data =? 0); [|reflexivity].
      apply resize_frame. exact Hne.
    + destruct (st (storage data) =? size_numel size); [reflexivity|].
      destruct (st (storage data) =? 0); [|reflexivity].
      apply resize_frame. exact Hne.
  - destruct (st (storage data) >? 0); [|reflexivity].
    destruct (storage_offset data =? 0); [|reflexivity].
    apply resize_frame.
  - destruct (st (storage data) =? size_numel size); [reflexivity|].
    destruct (st (storage data) =? 0); [|reflexivity].
    apply resize_frame.
Qed.

(** X12: calling either helper a second time with the same arguments gives
    the first call's outcome and changes nothing more. *)
Theorem storage_helpers_idempotent (data : Tensor) (size : list Z) (st : Store) :
  free_storage data (snd (free_storage data st)) = free_storage data st /\
  alloc_storage data size (snd (alloc_storage data size st))
  = alloc_storage data size st.
Proof.
  split.
  - unfold free_storage at 2 3.
    destruct (st (storage data) >? 0) eqn:Hfull.
    + destruct (storage_offset data =? 0) eqn:Hoff; cbn [snd].
      * destruct (resize_spec st (storage data) 0 (Z.le_refl 0))
          as (st' & -> & Hzero & _).
        cbn [snd]. unfold free_storage. rewrite Hzero. reflexivity.
      * unfold free_storage. rewrite Hfull, Hoff. reflexivity.
    + cbn [snd]. unfold free_storage. rewrite Hfull. reflexivity.
  - unfold alloc_storage at 2 3.
    destruct (st (storage data) =? size_numel size) eqn:Hsame.
    + cbn [snd]. unfold alloc_storage. rewrite Hsame. reflexivity.
    + destruct (st (storage data) =? 0) eqn:Hempty; cbn [snd].
      * destruct (Z.lt_ge_cases (size_numel size) 0) as [Hneg|Hpos].
        -- rewrite (resize_negative st (storage data) _ Hneg). cbn [snd].
           unfold alloc_storage. rewrite Hsame, Hempty.
           apply resize_negative. exact Hneg.
        -- destruct (resize_spec st (storage data) _ Hpos)
             as (st' & -> & Hnew & _).
           cbn [snd]. unfold alloc_storage. rewrite Hnew, Z.eqb_refl. reflexivity.
      * unfold alloc_storage. rewrite Hsame, Hempty. reflexivity.
Qed.

(** X13: for a tensor at offset zero of a storage of any (non-negative)
    size and a [size] whose element count is not negative, [free_storage]
    followed by [alloc_storage] raises nothing and leaves the storage with
    [size.numel()] elements, the other storages untouched. *)
Theorem free_then_alloc (data : Tensor) (size : list Z) (st : Store) :
  storage_offset data = 0 -> 0 <= st (storage data) ->
  0 <= size_numel size ->
  exists st1 st2,
    free_storage data st = (None, st1) /\
    alloc_storage data size st1 = (None, st2) /\
    st2 (storage data) = size_numel size /\
    forall h, h <> storage data -> st2 h = st h.
Proof.
  intros Hoff Hsize Hnumel.
  assert (Hfree : exists st1, free_storage data st = (None, st1) /\
                              st1 (storage data) = 0 /\
                              forall h, h <> storage data -> st1 h = st h).
  { unfold free_storage. apply Z.eqb_eq in Hoff. rewrite Hoff.
    destruct (st (storage data) >? 0) eqn:Hfull.
    - apply resize_spec. lia.
    - exists st. split; [reflexivity|]. split; [|reflexivity].
      rewrite Z.gtb_ltb in Hfull. apply Z.ltb_ge in Hfull. lia. }
  destruct Hfree as (st1 & Hfree & Hzero & Hframe).
  exists st1. unfold alloc_storage. rewrite Hzero.
  destruct (0 =? size_numel size) eqn:Hsame.
  - exists st1. split; [exact Hfree|]. split; [reflexivity|].
    apply Z.eqb_eq in Hsame. split; [congruence | exact Hframe].
  - cbn [Z.eqb].
    destruct (resize_spec st1 (storage data) (size_numel size) Hnumel)
      as (st2 & Hcall & Hnew & Hother).
    exists st2. split; [exact Hfree|]. split; [exact Hcall|].
    split; [exact Hnew|]. intros h Hne. rewrite Hother by exact Hne.
    apply Hframe. exact Hne.
Qed.

(** X13 at a storage of four elements asked to hold 2 x 3. *)
Lemma free_then_alloc_witness :
  storage_offset view_tensor = 0 /\ 0 <= shared_store (storage view_tensor) /\
  0 <= size_numel [2; 3] /\
  exists st1 st2,
    free_storage view_tensor shared_store = (None, st1) /\
    alloc_storage view_tensor [2; 3] st1 = (None, st2) /\
    st2 (storage view_tensor) = size_numel [2; 3] /\
    forall h, h <> storage view_tensor -> st2 h = shared_store h.
Proof.
  assert (Hoff : storage_offset view_tensor = 0) by reflexivity.
  assert (Hsize : 0 <= shared_store (storage view_tensor)) by (unfold shared_store; lia).
  assert (Hnumel : 0 <= size_numel [2; 3]) by (vm_compute; discriminate).
  split; [exact Hoff|]. split; [exact Hsize|]. split; [exact Hnumel|].
  exact (free_then_alloc view_tensor [2; 3] shared_store Hoff Hsize Hnumel).
Defined.

(** X14: [alloc_storage] never changes the element count of a storage that
    is not empty, whether it returns or raises. *)
Theorem alloc_storage_keeps_nonempty (data : Tensor) (size : list Z) (st : Store) :
  st (storage data) <> 0 ->
  snd (alloc_storage data size st) = st.
Proof.
  intros Hfull. unfold alloc_storage.
  destruct (st (storage data) =? size_numel size); [reflexivity|].
  apply Z.eqb_neq in Hfull. rewrite Hfull. reflexivity.
Qed.

(** X14 at a storage of four elements asked to hold 2 x 3. *)
Lemma alloc_storage_keeps_nonempty_witness :
  shared_store (storage view_tensor) <> 0 /\
  snd (alloc_storage view_tensor [2; 3] shared_store) = shared_store.
Proof.
  assert (Hfull : shared_store (storage view_tensor) <> 0) by (unfold shared_store; lia).
  split; [exact Hfull|].
  exact (alloc_storage_keeps_nonempty view_tensor [2; 3] shared_store Hfull).
Defined.

End Storage.

Module Cast.

(** ** cast_trensor_to_fp16 and cast_trensor_to_fp32 *)

(** The dtypes a tensor can have; only the two the casts test for matter. *)
Inductive DType : Type :=
| float32
| float16
| float64
| bfloat16
| int64.

(** What the casts read and write of a tensor. *)
Record Tensor : Type := mkTensor {
  dtype : DType;
  is_leaf : bool;
  requires_grad : bool
}.

(** The dtypes whose tensors can require a gradient. *)
Definition is_floating_point (d : DType) : bool :=
  match d with
  | int64 => false
  | _ => true
  end.

(** [t.requires_grad = b]: the flag can be assigned on a leaf only, and only
    a floating-point tensor can be made to require a gradient; the setter
    raises a RuntimeError otherwise. *)
Definition set_requires_grad (t : Tensor) (b : bool) : result Tensor :=
  if negb (is_leaf t) then Raise RuntimeError
  else if b && negb (is_floating_point (dtype t)) then Raise RuntimeError
  else Ok {| dtype := dtype t; is_leaf := is_leaf t; requires_grad := b |}.

(** [dtype is d]: dtypes are singletons, so identity is equality. *)
Definition dtype_is (d1 d2 : DType) : bool :=
  match d1, d2 with
  | float32, float32 | float16, float16 | float64, float64
  | bfloat16, bfloat16 | int64, int64 => true
  | _, _ => false
  end.

(** [t.to(d)], the conversion behind [t.half()] and [t.float()]: the tensor
    itself when it has the dtype already, and a new tensor otherwise.  With
    gradients being recorded ([grad_enabled], the mode that [torch.no_grad()]
    switches off) the conversion of a tensor that requires a gradient is a
    recorded operation: its result requires a gradient and is no leaf.  In
    every other case the result is a leaf that requires none. *)
Definition to (grad_enabled : bool) (d : DType) (t : Tensor) : Tensor :=
  if dtype_is (dtype t) d then t
  else
    let recorded := grad_enabled && requires_grad t in
    {| dtype := d; is_leaf := negb recorded; requires_grad := recorded |}.

Definition half (grad_enabled : bool) (t : Tensor) : Tensor :=
  to grad_enabled float16 t.

Definition float (grad_enabled : bool) (t : Tensor) : Tensor :=
  to grad_enabled float32 t.

Section Casting.

(** Whether the call runs with gradients being recorded. *)
Variable grad_enabled : bool.

(** Lines 51-57. *)
Definition cast_trensor_to_fp16 (tensor : Tensor) : result Tensor :=
  if dtype_is (dtype tensor) float32 then
    let out := half grad_enabled tensor in
    out <- (if is_leaf tensor
            then set_requires_grad out (requires_grad tensor)
            else Ok out) ;;
    Ok out
  else Ok tensor.

(** Lines 60-66. *)
Definition cast_trensor_to_fp32 (tensor : Tensor) : result Tensor :=
  if dtype_is (dtype tensor) float16 then
    let out := float grad_enabled tensor in
    out <- (if is_leaf tensor
            then set_requires_grad out (requires_grad tensor)
            else Ok out) ;;
    Ok out
  else Ok tensor.

(** A leaf of dtype [d] that requires a gradient, met with gradients being
    recorded. *)
Definition recorded_leaf (d : DType) (t : Tensor) : bool :=
  grad_enabled && dtype_is (dtype t) d && is_leaf t && requires_grad t.

End Casting.

(** An fp16 leaf that requires a gradient. *)
Definition fp16_leaf : Tensor := mkTensor float16 true true.

(** An fp32 leaf that requires a gradient. *)
Definition fp32_leaf : Tensor := mkTensor float32 true true.

Lemma dtype_is_eq (d1 d2 : DType) : dtype_is d1 d2 = true <-> d1 = d2.
Proof. destruct d1, d2; cbn; split; intros H; congruence. Qed.

Lemma dtype_is_neq (d1 d2 : DType) : dtype_is d1 d2 = false <-> d1 <> d2.
Proof. rewrite <- dtype_is_eq. destruct (dtype_is d1 d2); split; congruence. Qed.

(** Case analysis on the mode and on a tensor's fields. *)
Ltac cast_cases g t :=
  destruct t as [[] [] []], g; cbn; try discriminate; try reflexivity.

(** The fp16 cast raises on a float32 leaf that requires a gradient when
    gradients are being recorded: [half] gives a tensor that is no leaf, and
    its flag cannot be assigned. *)
Lemma cast_trensor_to_fp16_raises (g : bool) (tensor : Tensor) :
  recorded_leaf g float32 tensor = true ->
  cast_trensor_to_fp16 g tensor = Raise RuntimeError.
Proof. cast_cases g tensor. Qed.

Lemma cast_trensor_to_fp32_raises (g : bool) (tensor : Tensor) :
  recorded_leaf g float16 tensor = true ->
  cast_trensor_to_fp32 g tensor = Raise RuntimeError.
Proof. cast_cases g tensor. Qed.

(** In every other case the fp16 cast returns: a new float16 tensor with a
    leaf's [requires_grad] for a float32 tensor, the tensor itself for any
    other. *)
Lemma cast_trensor_to_fp16_returns (g : bool) (tensor : Tensor) :
  recorded_leaf g float32 tensor = false ->
  exists out,
    cast_trensor_to_fp16 g tensor = Ok out /\
    (dtype tensor = float32 ->
       dtype out = float16 /\ out <> tensor /\
       (is_leaf tensor = true -> requires_grad out = requires_grad tensor)) /\
    (dtype tensor <> float32 -> out = tensor).
Proof.
  intros Hrec.
  destruct tensor as [[] [] []], g; cbn in Hrec; try discriminate Hrec;
    cbn; eexists; (split; [reflexivity|]); split;
    solve [ intros _; repeat split; congruence
          | intros H; congruence
          | reflexivity ].
Qed.

Lemma cast_trensor_to_fp32_returns (g : bool) (tensor : Tensor) :
  recorded_leaf g float16 tensor = false ->
  exists out,
    cast_trensor_to_fp32 g tensor = Ok out /\
    (dtype tensor = float16 ->
       dtype out = float32 /\ out <> tensor /\
       (is_leaf tensor = true -> requires_grad out = requires_grad tensor)) /\
    (dtype tensor <> float16 -> out = tensor).
Proof.
  intros Hrec.
  destruct tensor as [[] [] []], g; cbn in Hrec; try discriminate Hrec;
    cbn; eexists; (split; [reflexivity|]); split;
    solve [ intros _; repeat split; congruence
          | intros H; congruence
          | reflexivity ].
Qed.

(** A cast returns its argument when the dtype is not the one it converts
    from. *)
Lemma cast_trensor_to_fp16_other (g : bool) (tensor : Tensor) :
  dtype tensor <> float32 -> cast_trensor_to_fp16 g tensor = Ok tensor.
Proof.
  intros Hd. apply dtype_is_neq in Hd. unfold cast_trensor_to_fp16.
  rewrite Hd. reflexivity.
Qed.

Lemma cast_trensor_to_fp32_other (g : bool) (tensor : Tensor) :
  dtype tensor <> float16 -> cast_trensor_to_fp32 g tensor = Ok tensor.
Proof.
  intros Hd. apply dtype_is_neq in Hd. unfold cast_trensor_to_fp32.
  rewrite Hd. reflexivity.
Qed.

(** No tensor leaves the fp16 cast as float32, nor the fp32 cast as
    float16. *)
Lemma cast_trensor_to_fp16_dtype (g : bool) (tensor out : Tensor) :
  cast_trensor_to_fp16 g tensor = Ok out -> dtype out <> float32.
Proof.
  destruct tensor as [[] [] []], g; cbn; intros H; inversion H; discriminate.
Qed.

Lemma cast_trensor_to_fp32_dtype (g : bool) (tensor out : Tensor) :
  cast_trensor_to_fp32 g tensor = Ok out -> dtype out <> float16.
Proof.
  destruct tensor as [[] [] []], g; cbn; intros H; inversion H; discriminate.
Qed.

(** The fp16, fp32, fp16 chain on a float16 tensor ends at float16 whenever
    its fp32 cast returns. *)
Lemma cast_trensor_chain_dtype (g : bool) (tensor : Tensor) :
  dtype tensor = float16 ->
  recorded_leaf g float16 tensor = false ->
  exists out,
    (t1 <- cast_trensor_to_fp16 g tensor ;;
     t2 <- cast_trensor_to_fp32 g t1 ;;
     cast_trensor_to_fp16 g t2) = Ok out /\
    dtype out = float16.
Proof.
  intros Hd Hrec.
  destruct tensor as [[] [] []], g; cbn in Hd, Hrec; try discriminate;
    cbn; eexists; split; reflexivity.
Qed.

(** A RuntimeError is the only exception a cast raises. *)
Lemma cast_trensor_to_fp16_exn (g : bool) (tensor : Tensor) (e : exn) :
  cast_trensor_to_fp16 g tensor = Raise e -> e = RuntimeError.
Proof.
  destruct tensor as [[] [] []], g; cbn; intros H; inversion H; reflexivity.
Qed.

Lemma cast_trensor_to_fp32_exn (g : bool) (tensor : Tensor) (e : exn) :
  cast_trensor_to_fp32 g tensor = Raise e -> e = RuntimeError.
Proof.
  destruct tensor as [[] [] []], g; cbn; intros H; inversion H; reflexivity.
Qed.

(** C5 at a leaf that requires a gradient, with gradients being recorded as
    they are by default: the fp16 cast of the float32 leaf raises a
    RuntimeError where the claim has it return a float16 tensor that requires
    a gradient, and so do the fp32 cast of the float16 leaf and the
    fp16, fp32, fp16 chain on it.  Lines 54-55 and 63-64 assign the flag on
    the result of [half] and [float], which is no leaf there.  Under
    [torch.no_grad()] the same calls return what the claim says. *)
Theorem cast_tensor_leaf_requiring_grad :
  cast_trensor_to_fp16 true fp32_leaf = Raise RuntimeError /\
  cast_trensor_to_fp32 true fp16_leaf = Raise RuntimeError /\
  (t1 <- cast_trensor_to_fp16 true fp16_leaf ;;
   t2 <- cast_trensor_to_fp32 true t1 ;;
   cast_trensor_to_fp16 true t2) = Raise RuntimeError /\
  cast_trensor_to_fp16 false fp32_leaf = Ok (mkTensor float16 true true) /\
  cast_trensor_to_fp32 false fp16_leaf = Ok (mkTensor float32 true true) /\
  (t1 <- cast_trensor_to_fp16 false fp16_leaf ;;
   t2 <- cast_trensor_to_fp32 false t1 ;;
   cast_trensor_to_fp16 false t2) = Ok (mkTensor float16 true true).
Proof. repeat split. Qed.

(** *** Further facts on the casts *)

(** X15: each cast raises a RuntimeError on a leaf of the dtype it converts
    from that requires a gradient, when gradients are being recorded; on any
    other tensor it returns a tensor that is not of that dtype, and the cast
    of what it returned is that same tensor: where they return, the casts are
    idempotent. *)
Theorem cast_tensor_idempotent (g : bool) (tensor : Tensor) :
  (recorded_leaf g float32 tensor = true ->
     cast_trensor_to_fp16 g tensor = Raise RuntimeError) /\
  (recorded_leaf g float32 tensor = false ->
     exists out,
       cast_trensor_to_fp16 g tensor = Ok out /\
       dtype out <> float32 /\
       cast_trensor_to_fp16 g out = Ok out) /\
  (recorded_leaf g float16 tensor = true ->
     cast_trensor_to_fp32 g tensor = Raise RuntimeError) /\
  (recorded_leaf g float16 tensor = false ->
     exists out,
       cast_trensor_to_fp32 g tensor = Ok out /\
       dtype out <> float16 /\
       cast_trensor_to_fp32 g out = Ok out).
Proof.
  split; [apply cast_trensor_to_fp16_raises|].
  split.
  { intros Hrec.
    destruct (cast_trensor_to_fp16_returns g tensor Hrec) as (out & Hcall & _).
    exists out. split; [exact Hcall|].
    pose proof (cast_trensor_to_fp16_dtype g tensor out Hcall) as Hd.
    split; [exact Hd|]. apply cast_trensor_to_fp16_other. exact Hd. }
  split; [apply cast_trensor_to_fp32_raises|].
  intros Hrec.
  destruct (cast_trensor_to_fp32_returns g tensor Hrec) as (out & Hcall & _).
  exists out. split; [exact Hcall|].
  pose proof (cast_trensor_to_fp32_dtype g tensor out Hcall) as Hd.
  split; [exact Hd|]. apply cast_trensor_to_fp32_other. exact Hd.
Qed.

End Cast.

Module Traverse.

(** ** apply_to_tensors *)

Section Traversal.

(** Tensors, dict keys and the values that are neither tensor nor list, tuple
    or dict. *)
Variables Tensor Key Other : Type.

(** The values [apply_to_tensors] tells apart, in the order of its tests. *)
#[local] Unset Elimination Schemes.
Inductive PyObj : Type :=
| PTensor (t : Tensor)
| PList (items : list PyObj)
| PTuple (items : list PyObj)
| PDict (items : list (Key * PyObj))
| POther (o : Other).
#[local] Set Elimination Schemes.

(** Lines 69-79.  [fn] may return any value. *)
Fixpoint apply_to_tensors (x : PyObj) (fn : Tensor -> PyObj) : PyObj :=
  match x with
  | PTensor t => fn t
  | PList items => PList (map (fun t => apply_to_tensors t fn) items)
  | PTuple items => PTuple (map (fun t => apply_to_tensors t fn) items)
  | PDict items =>
      PDict (map (fun kv => (fst kv, apply_to_tensors (snd kv) fn)) items)
  | POther o => POther o
  end.

(** Lines 82-83: [args] is the tuple of positional arguments, [kwargs] the
    dict of keyword arguments. *)
Definition cast_float_arguments (fn : Tensor -> PyObj)
    (args : list PyObj) (kwargs : list (Key * PyObj)) : PyObj * PyObj :=
  (apply_to_tensors (PTuple args) fn, apply_to_tensors (PDict kwargs) fn).

(** The tensor leaves of a value, in traversal order. *)
Fixpoint tensors_of (x : PyObj) : list Tensor :=
  match x with
  | PTensor t => [t]
  | PList items => flat_map tensors_of items
  | PTuple items => flat_map tensors_of items
  | PDict items => flat_map (fun kv => tensors_of (snd kv)) items
  | POther _ => []
  end.

(** The leaves that are no tensors, in traversal order. *)
Fixpoint others_of (x : PyObj) : list Other :=
  match x with
  | PTensor _ => []
  | PList items => flat_map others_of items
  | PTuple items => flat_map others_of items
  | PDict items => flat_map (fun kv => others_of (snd kv)) items
  | POther o => [o]
  end.

(** Induction on a value with the property known of every item of a list,
    tuple or dict. *)
Section NestedInduction.

Variable P : PyObj -> Prop.
Hypothesis tensor_case : forall t, P (PTensor t).
Hypothesis list_case : forall items, Forall P items -> P (PList items).
Hypothesis tuple_case : forall items, Forall P items -> P (PTuple items).
Hypothesis dict_case :
  forall items, Forall (fun kv => P (snd kv)) items -> P (PDict items).
Hypothesis other_case : forall o, P (POther o).

Fixpoint PyObj_nested_ind (x : PyObj) : P x :=
  match x with
  | PTensor t => tensor_case t
  | PList items =>
      list_case items
        ((fix all (l : list PyObj) : Forall P l :=
            match l with
            | [] => Forall_nil P
            | y :: l' => Forall_cons y (PyObj_nested_ind y) (all l')
            end) items)
  | PTuple items =>
      tuple_case items
        ((fix all (l : list PyObj) : Forall P l :=
            match l with
            | [] => Forall_nil P
            | y :: l' => Forall_cons y (PyObj_nested_ind y) (all l')
            end) items)
  | PDict items =>
      dict_case items
        ((fix all (l : list (Key * PyObj)) : Forall (fun kv => P (snd kv)) l :=
            match l with
            | [] => Forall_nil _
            | kv :: l' => Forall_cons kv (PyObj_nested_ind (snd kv)) (all l')
            end) items)
  | POther o => other_case o
  end.

End NestedInduction.

Lemma map_id_Forall (A : Type) (f : A -> A) (l : list A) :
  Forall (fun y => f y = y) l -> map f l = l.
Proof.
  induction 1 as [|y l Hy _ IH]; [reflexivity|].
  cbn [map]. rewrite Hy, IH. reflexivity.
Qed.

Lemma flat_map_map_Forall (A B : Type) (f : A -> list B) (g : A -> A)
    (h : B -> B) (l : list A) :
  Forall (fun y => f (g y) = map h (f y)) l ->
  flat_map f (map g l) = map h (flat_map f l).
Proof.
  induction 1 as [|y l Hy _ IH]; [reflexivity|].
  cbn [map flat_map]. rewrite Hy, IH, map_app. reflexivity.
Qed.

Lemma flat_map_same_Forall (A B : Type) (f : A -> list B) (g : A -> A)
    (l : list A) :
  Forall (fun y => f (g y) = f y) l ->
  flat_map f (map g l) = flat_map f l.
Proof.
  induction 1 as [|y l Hy _ IH]; [reflexivity|].
  cbn [map flat_map]. rewrite Hy, IH. reflexivity.
Qed.

(** With the identity for [fn] the value is rebuilt as it was. *)
Lemma apply_to_tensors_id (x : PyObj) : apply_to_tensors x PTensor = x.
Proof.
  induction x as [t|items IH|items IH|items IH|o] using PyObj_nested_ind;
    cbn [apply_to_tensors]; try reflexivity.
  - f_equal. apply map_id_Forall. exact IH.
  - f_equal. apply map_id_Forall. exact IH.
  - f_equal. apply map_id_Forall.
    eapply Forall_impl; [|exact IH].
    intros [k v] Hv. cbn [fst snd] in *. rewrite Hv. reflexivity.
Qed.

(** [fn] reaches every tensor leaf, in order. *)
Lemma apply_to_tensors_tensors (f : Tensor -> Tensor) (x : PyObj) :
  tensors_of (apply_to_tensors x (fun t => PTensor (f t))) = map f (tensors_of x).
Proof.
  induction x as [t|items IH|items IH|items IH|o] using PyObj_nested_ind;
    cbn [apply_to_tensors tensors_of]; try reflexivity.
  - apply flat_map_map_Forall. exact IH.
  - apply flat_map_map_Forall. exact IH.
  - apply (flat_map_map_Forall _ _ (fun kv => tensors_of (snd kv))). exact IH.
Qed.

(** The other leaves stay as they are. *)
Lemma apply_to_tensors_others (f : Tensor -> Tensor) (x : PyObj) :
  others_of (apply_to_tensors x (fun t => PTensor (f t))) = others_of x.
Proof.
  induction x as [t|items IH|items IH|items IH|o] using PyObj_nested_ind;
    cbn [apply_to_tensors others_of]; try reflexivity.
  - apply flat_map_same_Forall. exact IH.
  - apply flat_map_same_Forall. exact IH.
  - apply (flat_map_same_Forall _ _ (fun kv => others_of (snd kv))). exact IH.
Qed.

(** C10: [apply_to_tensors] with the identity for [fn] returns a value equal
    to its argument; with any [fn] from tensors to tensors, the tensor leaves
    of the result are the images of the argument's, in order, and the leaves
    that are no tensors are the argument's. *)
Theorem apply_to_tensors_identity (x : PyObj) :
  apply_to_tensors x PTensor = x /\
  forall f : Tensor -> Tensor,
    tensors_of (apply_to_tensors x (fun t => PTensor (f t))) = map f (tensors_of x) /\
    others_of (apply_to_tensors x (fun t => PTensor (f t))) = others_of x.
Proof.
  split; [apply apply_to_tensors_id|].
  intros f. split; [apply apply_to_tensors_tensors | apply apply_to_tensors_others].
Qed.

End Traversal.

Arguments PTensor {Tensor Key Other} t.
Arguments PList {Tensor Key Other} items.
Arguments PTuple {Tensor Key Other} items.
Arguments PDict {Tensor Key Other} items.
Arguments POther {Tensor Key Other} o.
Arguments apply_to_tensors {Tensor Key Other} x fn.

(** The structure [{"a": [T1, (T2,)]}] of the spec, with tensors named by
    numbers, under the identity and under a function on tensors. *)
Example apply_to_tensors_nested :
  let x : PyObj nat string unit :=
    PDict [("a"%string, PList [PTensor 1%nat; PTuple [PTensor 2%nat]])] in
  apply_to_tensors x PTensor = x /\
  apply_to_tensors x (fun t => PTensor (S t))
  = PDict [("a"%string, PList [PTensor 2%nat; PTuple [PTensor 3%nat]])].
Proof. split; reflexivity. Qed.

Arguments tensors_of {Tensor Key Other} x.
Arguments others_of {Tensor Key Other} x.
Arguments cast_float_arguments {Tensor Key Other} fn args kwargs.

(** *** Further facts on the traversal *)

Section TraversalFacts.

Variables Tensor Key Other : Type.

Local Abbreviation Obj := (PyObj Tensor Key Other).

Lemma map_ext_Forall_eq (A B : Type) (f g : A -> B) (l : list A) :
  Forall (fun y => f y = g y) l -> map f l = map g l.
Proof.
  induction 1 as [|y l Hy _ IH]; [reflexivity|].
  cbn [map]. rewrite Hy, IH. reflexivity.
Qed.

(** X16: two traversals in a row are one traversal with the second function
    applied to what the first one returns at each tensor:
    [apply_to_tensors(apply_to_tensors(x, f), g)] equals
    [apply_to_tensors(x, lambda t: apply_to_tensors(f(t), g))]. *)
Theorem apply_to_tensors_compose (fn1 fn2 : Tensor -> Obj) (x : Obj) :
  apply_to_tensors (apply_to_tensors x fn1) fn2
  = apply_to_tensors x (fun t => apply_to_tensors (fn1 t) fn2).
Proof.
  induction x as [t|items IH|items IH|items IH|o] using PyObj_nested_ind;
    cbn [apply_to_tensors]; try reflexivity.
  - f_equal. rewrite map_map. apply map_ext_Forall_eq. exact IH.
  - f_equal. rewrite map_map. apply map_ext_Forall_eq. exact IH.
  - f_equal. rewrite map_map. apply map_ext_Forall_eq.
    eapply Forall_impl; [|exact IH].
    intros [k v] Hv. cbn [fst snd] in *. rewrite Hv. reflexivity.
Qed.

Lemma Forall_In_flat_map (A B : Type) (f : A -> list B) (P : A -> Prop)
    (Q : B -> Prop) (l : list A) :
  Forall (fun y => (forall b, In b (f y) -> Q b) -> P y) l ->
  (forall b, In b (flat_map f l) -> Q b) ->
  Forall P l.
Proof.
  intros Hall Hq. apply Forall_forall. intros y Hy.
  rewrite Forall_forall in Hall. apply (Hall y Hy).
  intros b Hb. apply Hq. apply in_flat_map. exists y. split; assumption.
Qed.

(** X17: the result depends on the function only through its values at the
    tensors of the argument: two functions that agree on them give the same
    result. *)
Theorem apply_to_tensors_ext (fn1 fn2 : Tensor -> Obj) (x : Obj) :
  (forall t, In t (tensors_of x) -> fn1 t = fn2 t) ->
  apply_to_tensors x fn1 = apply_to_tensors x fn2.
Proof.
  induction x as [t|items IH|items IH|items IH|o] using PyObj_nested_ind;
    cbn [apply_to_tensors tensors_of]; intros Hagree; try reflexivity.
  - apply Hagree. left. reflexivity.
  - f_equal. apply map_ext_Forall_eq.
    apply (Forall_In_flat_map _ _ tensors_of _ (fun t => fn1 t = fn2 t)); assumption.
  - f_equal. apply map_ext_Forall_eq.
    apply (Forall_In_flat_map _ _ tensors_of _ (fun t => fn1 t = fn2 t)); assumption.
  - f_equal. apply map_ext_Forall_eq.
    apply (Forall_In_flat_map _ _ (fun kv => tensors_of (snd kv)) _
             (fun t => fn1 t = fn2 t)); [|assumption].
    eapply Forall_impl; [|exact IH].
    intros [k v] Hv Hin. cbn [fst snd] in *. rewrite Hv by exact Hin. reflexivity.
Qed.

End TraversalFacts.

(** X17 at the spec's structure, with two functions that differ off its
    tensors only. *)
Lemma apply_to_tensors_ext_witness :
  let x : PyObj nat string unit :=
    PDict [("a"%string, PList [PTensor 1%nat; PTuple [PTensor 2%nat]])] in
  let fn1 : nat -> PyObj nat string unit := fun t => PTensor (S t) in
  let fn2 : nat -> PyObj nat string unit :=
    fun t => if Nat.leb t 2 then PTensor (S t) else POther tt in
  (forall t, In t (tensors_of x) -> fn1 t = fn2 t) /\
  apply_to_tensors x fn1 = apply_to_tensors x fn2.
Proof.
  intros x fn1 fn2.
  assert (Hagree : forall t, In t (tensors_of x) -> fn1 t = fn2 t).
  { intros t [<-|[<-|[]]]; reflexivity. }
  split; [exact Hagree|].
  exact (apply_to_tensors_ext nat string unit fn1 fn2 x Hagree).
Defined.

End Traverse.

Module CastArguments.

(** ** cast_float_arguments with a function that can raise *)

Import Traverse.

Section RaisingTraversal.

Variables Tensor Key Other : Type.

Local Abbreviation Obj := (PyObj Tensor Key Other).

(** Lines 69-79 for an [fn] that can raise: the items of a list, tuple or
    dict are visited from the first on, and the first exception ends the
    call. *)
Fixpoint apply_to_tensors (x : Obj) (fn : Tensor -> result Obj) : result Obj :=
  match x with
  | PTensor t => fn t
  | PList items =>
      items' <- mapM (fun t => apply_to_tensors t fn) items ;; Ok (PList items')
  | PTuple items =>
      items' <- mapM (fun t => apply_to_tensors t fn) items ;; Ok (PTuple items')
  | PDict items =>
      items' <- mapM (fun kv => val <- apply_to_tensors (snd kv) fn ;;
                                Ok (fst kv, val)) items ;;
      Ok (PDict items')
  | POther o => Ok (POther o)
  end.

(** Lines 82-83: the positional arguments are traversed before the keyword
    arguments. *)
Definition cast_float_arguments (fn : Tensor -> result Obj)
    (args : list Obj) (kwargs : list (Key * Obj)) : result (Obj * Obj) :=
  args' <- apply_to_tensors (PTuple args) fn ;;
  kwargs' <- apply_to_tensors (PDict kwargs) fn ;;
  Ok (args', kwargs').

(** An [fn] that gives a tensor for a tensor, or raises. *)
Definition tensor_fn (f : Tensor -> result Tensor) : Tensor -> result Obj :=
  fun t => out <- f t ;; Ok (PTensor out).

End RaisingTraversal.

Arguments apply_to_tensors {Tensor Key Other} x fn.
Arguments cast_float_arguments {Tensor Key Other} fn args kwargs.
Arguments tensor_fn {Tensor Key Other} f t.

(** *** Comprehensions over a function that can raise *)

Section MapM.

Context {A B : Type}.

Lemma mapM_app (f : A -> result B) (l1 l2 : list A) :
  mapM f (l1 ++ l2)
  = (ys1 <- mapM f l1 ;; ys2 <- mapM f l2 ;; Ok (ys1 ++ ys2)).
Proof.
  induction l1 as [|x l1 IH]; cbn [app mapM bind].
  - destruct (mapM f l2); reflexivity.
  - destruct (f x) as [y|e]; cbn [bind]; [|reflexivity].
    rewrite IH. destruct (mapM f l1) as [ys1|e]; cbn [bind]; [|reflexivity].
    destruct (mapM f l2); reflexivity.
Qed.

Lemma mapM_length (f : A -> result B) (l : list A) (l' : list B) :
  mapM f l = Ok l' -> length l' = length l.
Proof.
  revert l'. induction l as [|x l IH]; cbn [mapM]; intros l' H.
  - inversion H. reflexivity.
  - destruct (f x) as [y|e]; cbn [bind] in H; [|discriminate].
    destruct (mapM f l) as [ys|e]; cbn [bind] in H; [|discriminate].
    inversion H. cbn [length]. rewrite (IH ys eq_refl). reflexivity.
Qed.

(** What a comprehension returns holds results of [f] only. *)
Lemma mapM_Forall (f : A -> result B) (Q : B -> Prop) (l : list A) (l' : list B) :
  (forall x y, f x = Ok y -> Q y) ->
  mapM f l = Ok l' -> Forall Q l'.
Proof.
  intros Hf. revert l'. induction l as [|x l IH]; cbn [mapM]; intros l' H.
  - inversion H. constructor.
  - destruct (f x) as [y|e] eqn:Hx; cbn [bind] in H; [|discriminate].
    destruct (mapM f l) as [ys|e]; cbn [bind] in H; [|discriminate].
    inversion H. constructor; [exact (Hf x y Hx) | exact (IH ys eq_refl)].
Qed.

(** A comprehension returns when [f] returns on every item. *)
Lemma mapM_returns (f : A -> result B) (l : list A) :
  Forall (fun x => exists y, f x = Ok y) l -> exists l', mapM f l = Ok l'.
Proof.
  induction 1 as [|x l [y Hy] _ [ys IH]]; cbn [mapM].
  - exists []. reflexivity.
  - rewrite Hy, IH. exists (y :: ys). reflexivity.
Qed.

(** It raises when [f] raises on some item: the exception of the first such
    item. *)
Lemma mapM_raises (f : A -> result B) (e : exn) (l : list A) :
  (forall x e', f x = Raise e' -> e' = e) ->
  Exists (fun x => f x = Raise e) l -> mapM f l = Raise e.
Proof.
  intros Hf. induction 1 as [x l Hx|x l _ IH]; cbn [mapM].
  - rewrite Hx. reflexivity.
  - destruct (f x) as [y|e'] eqn:Hx; cbn [bind].
    + rewrite IH. reflexivity.
    + rewrite (Hf x e' Hx). reflexivity.
Qed.

End MapM.

Lemma mapM_fst {K V V' : Type} (f : V -> result V') (l : list (K * V))
    (l' : list (K * V')) :
  mapM (fun kv => val <- f (snd kv) ;; Ok (fst kv, val)) l = Ok l' ->
  map fst l' = map fst l.
Proof.
  revert l'. induction l as [|[k v] l IH]; cbn [mapM fst snd]; intros l' H.
  - inversion H. reflexivity.
  - destruct (f v) as [v'|e]; cbn [bind] in H; [|discriminate].
    destruct (mapM _ l) as [ys|e]; cbn [bind] in H; [|discriminate].
    inversion H. cbn [map fst]. rewrite (IH ys eq_refl). reflexivity.
Qed.

(** The leaves of the items a comprehension returns, from those of each
    item. *)
Lemma mapM_flat_map {A A' B B' : Type} (f : B -> result B') (g : A -> result A')
    (T : A -> list B) (T' : A' -> list B') (l : list A) :
  Forall (fun y => (y' <- g y ;; Ok (T' y')) = mapM f (T y)) l ->
  (l' <- mapM g l ;; Ok (flat_map T' l')) = mapM f (flat_map T l).
Proof.
  induction 1 as [|y l Hy _ IH]; [reflexivity|].
  cbn [mapM flat_map]. rewrite mapM_app, <- Hy, <- IH.
  destruct (g y) as [y'|e]; cbn [bind]; [|reflexivity].
  destruct (mapM g l) as [ys|e]; cbn [bind]; reflexivity.
Qed.

Section RaisingTraversalFacts.

Variables Tensor Key Other : Type.

Local Abbreviation Obj := (PyObj Tensor Key Other).

(** On an [fn] that never raises, the traversal returns what the traversal
    of [Traverse] gives. *)
Lemma apply_to_tensors_total (fn : Tensor -> Obj) (x : Obj) :
  apply_to_tensors x (fun t => Ok (fn t)) = Ok (Traverse.apply_to_tensors x fn).
Proof.
  induction x as [t|items IH|items IH|items IH|o] using PyObj_nested_ind;
    cbn [apply_to_tensors Traverse.apply_to_tensors]; try reflexivity.
  - rewrite (mapM_map _ (fun t => Traverse.apply_to_tensors t fn)); [reflexivity|].
    apply Forall_forall. exact IH.
  - rewrite (mapM_map _ (fun t => Traverse.apply_to_tensors t fn)); [reflexivity|].
    apply Forall_forall. exact IH.
  - rewrite (mapM_map _ (fun kv => (fst kv, Traverse.apply_to_tensors (snd kv) fn)));
      [reflexivity|].
    apply Forall_forall. eapply Forall_impl; [|exact IH].
    intros [k v] Hv. cbn [fst snd] in *. rewrite Hv. reflexivity.
Qed.

(** The traversal calls a tensor function on the tensor leaves in their
    order, up to the first call that raises; the tensor leaves of what it
    returns are the results. *)
Lemma apply_to_tensors_mapM (f : Tensor -> result Tensor) (x : Obj) :
  (y <- apply_to_tensors x (tensor_fn f) ;; Ok (tensors_of y))
  = mapM f (tensors_of x).
Proof.
  induction x as [t|items IH|items IH|items IH|o] using PyObj_nested_ind;
    cbn [apply_to_tensors tensors_of]; try reflexivity.
  - unfold tensor_fn. cbn [mapM]. destruct (f t); reflexivity.
  - rewrite <- (mapM_flat_map f (fun t => apply_to_tensors t (tensor_fn f))
                  tensors_of tensors_of items IH).
    destruct (mapM _ items); reflexivity.
  - rewrite <- (mapM_flat_map f (fun t => apply_to_tensors t (tensor_fn f))
                  tensors_of tensors_of items IH).
    destruct (mapM _ items); reflexivity.
  - rewrite <- (mapM_flat_map f
                  (fun kv => val <- apply_to_tensors (snd kv) (tensor_fn f) ;;
                             Ok (fst kv, val))
                  (fun kv => tensors_of (snd kv))
                  (fun kv => tensors_of (snd kv)) items).
    + destruct (mapM _ items); reflexivity.
    + eapply Forall_impl; [|exact IH].
      intros [k v] Hv. cbn [fst snd] in *. rewrite <- Hv.
      destruct (apply_to_tensors v (tensor_fn f)); reflexivity.
Qed.

(** A tuple comes back as a tuple of as many items, a dict as a dict of the
    same keys in the same order. *)
Lemma apply_to_tensors_tuple (fn : Tensor -> result Obj) (items : list Obj) (y : Obj) :
  apply_to_tensors (PTuple items) fn = Ok y ->
  exists items', y = PTuple items' /\ length items' = length items.
Proof.
  cbn [apply_to_tensors].
  destruct (mapM _ items) as [items'|e] eqn:Hitems; cbn [bind]; [|discriminate].
  intros H. inversion H. exists items'. split; [reflexivity|].
  exact (mapM_length _ _ _ Hitems).
Qed.

Lemma apply_to_tensors_dict (fn : Tensor -> result Obj) (items : list (Key * Obj))
    (y : Obj) :
  apply_to_tensors (PDict items) fn = Ok y ->
  exists items', y = PDict items' /\ map fst items' = map fst items.
Proof.
  cbn [apply_to_tensors].
  destruct (mapM _ items) as [items'|e] eqn:Hitems; cbn [bind]; [|discriminate].
  intros H. inversion H. exists items'. split; [reflexivity|].
  exact (mapM_fst (fun v => apply_to_tensors v fn) _ _ Hitems).
Qed.

(** [cast_float_arguments] calls a tensor function on the tensors of the
    positional arguments, then on those of the keyword arguments. *)
Lemma cast_float_arguments_mapM (f : Tensor -> result Tensor)
    (args : list Obj) (kwargs : list (Key * Obj)) :
  (r <- cast_float_arguments (tensor_fn f) args kwargs ;;
   Ok (tensors_of (fst r) ++ tensors_of (snd r)))
  = mapM f (tensors_of (PTuple args) ++ tensors_of (PDict kwargs)).
Proof.
  rewrite mapM_app.
  rewrite <- (apply_to_tensors_mapM f (PTuple args)).
  rewrite <- (apply_to_tensors_mapM f (PDict kwargs)).
  unfold cast_float_arguments.
  destruct (apply_to_tensors (PTuple args) (tensor_fn f)) as [args'|e];
    cbn [bind]; [|reflexivity].
  destruct (apply_to_tensors (PDict kwargs) (tensor_fn f)) as [kwargs'|e];
    cbn [bind]; reflexivity.
Qed.

End RaisingTraversalFacts.

(** *** cast_float_arguments with the fp16 cast *)

Section CastingArguments.

Variables Key Other : Type.

Local Abbreviation Obj := (PyObj Cast.Tensor Key Other).

(** X18: [cast_float_arguments(cast_trensor_to_fp16, *args, **kwargs)].
    When no tensor of the arguments is a float32 leaf that requires a
    gradient met with gradients being recorded, the call returns a tuple with
    as many items as [args] and a dict with the keys of [kwargs] in their
    order; the tensors in them are what the fp16 cast returned on the tensors
    of the arguments, in order, and none of them is float32.  When some
    tensor of the arguments is such a leaf, the call raises a
    RuntimeError. *)
Theorem cast_float_arguments_fp16 (g : bool) (args : list Obj)
    (kwargs : list (Key * Obj)) :
  (Forall (fun t => Cast.recorded_leaf g Cast.float32 t = false)
          (tensors_of (PTuple args) ++ tensors_of (PDict kwargs)) ->
   exists args' kwargs',
     cast_float_arguments (tensor_fn (Cast.cast_trensor_to_fp16 g)) args kwargs
     = Ok (PTuple args', PDict kwargs') /\
     length args' = length args /\
     map fst kwargs' = map fst kwargs /\
     mapM (Cast.cast_trensor_to_fp16 g) (tensors_of (PTuple args))
     = Ok (tensors_of (PTuple args')) /\
     mapM (Cast.cast_trensor_to_fp16 g) (tensors_of (PDict kwargs))
     = Ok (tensors_of (PDict kwargs')) /\
     Forall (fun t => Cast.dtype t <> Cast.float32)
            (tensors_of (PTuple args') ++ tensors_of (PDict kwargs'))) /\
  (Exists (fun t => Cast.recorded_leaf g Cast.float32 t = true)
          (tensors_of (PTuple args) ++ tensors_of (PDict kwargs)) ->
   cast_float_arguments (tensor_fn (Cast.cast_trensor_to_fp16 g)) args kwargs
   = Raise RuntimeError).
Proof.
  split.
  - intros Hall. apply Forall_app in Hall. destruct Hall as [Hargs Hkwargs].
    assert (Hret : forall l,
              Forall (fun t => Cast.recorded_leaf g Cast.float32 t = false) l ->
              exists l', mapM (Cast.cast_trensor_to_fp16 g) l = Ok l').
    { intros l Hl. apply mapM_returns. eapply Forall_impl; [|exact Hl].
      intros t Ht. destruct (Cast.cast_trensor_to_fp16_returns g t Ht) as (out & Hout & _).
      exists out. exact Hout. }
    destruct (Hret _ Hargs) as [la Hla]. destruct (Hret _ Hkwargs) as [lk Hlk].
    pose proof (apply_to_tensors_mapM Cast.Tensor Key Other
                  (Cast.cast_trensor_to_fp16 g) (PTuple args)) as Ha.
    pose proof (apply_to_tensors_mapM Cast.Tensor Key Other
                  (Cast.cast_trensor_to_fp16 g) (PDict kwargs)) as Hk.
    rewrite Hla in Ha. rewrite Hlk in Hk.
    destruct (apply_to_tensors (PTuple args) _) as [ya|e] eqn:Hya;
      cbn [bind] in Ha; [|discriminate].
    destruct (apply_to_tensors (PDict kwargs) _) as [yk|e] eqn:Hyk;
      cbn [bind] in Hk; [|discriminate].
    destruct (apply_to_tensors_tuple _ _ _ _ _ _ Hya) as (args' & -> & Hlen).
    destruct (apply_to_tensors_dict _ _ _ _ _ _ Hyk) as (kwargs' & -> & Hkeys).
    rewrite <- Ha in Hla. rewrite <- Hk in Hlk.
    exists args', kwargs'. unfold cast_float_arguments. rewrite Hya, Hyk.
    split; [reflexivity|]. split; [exact Hlen|]. split; [exact Hkeys|].
    split; [exact Hla|]. split; [exact Hlk|].
    apply Forall_app. split.
    + exact (mapM_Forall _ _ _ _ (Cast.cast_trensor_to_fp16_dtype g) Hla).
    + exact (mapM_Forall _ _ _ _ (Cast.cast_trensor_to_fp16_dtype g) Hlk).
  - intros Hsome.
    pose proof (cast_float_arguments_mapM Cast.Tensor Key Other
                  (Cast.cast_trensor_to_fp16 g) args kwargs) as Hcall.
    rewrite (mapM_raises (Cast.cast_trensor_to_fp16 g) RuntimeError) in Hcall.
    + destruct (cast_float_arguments _ args kwargs) as [r|e];
        cbn [bind] in Hcall; [discriminate|].
      inversion Hcall. reflexivity.
    + intros t e. apply Cast.cast_trensor_to_fp16_exn.
    + eapply Exists_impl; [|exact Hsome].
      intros t. apply Cast.cast_trensor_to_fp16_raises.
Qed.

End CastingArguments.

(** One positional float32 leaf and one keyword float16 leaf, both requiring
    a gradient: the call raises with gradients being recorded and returns
    under [torch.no_grad()]. *)
Example cast_float_arguments_fp16_leaves :
  let args : list (PyObj Cast.Tensor string unit) := [PTensor Cast.fp32_leaf] in
  let kwargs : list (string * PyObj Cast.Tensor string unit) :=
    [("x"%string, PTensor Cast.fp16_leaf)] in
  cast_float_arguments (tensor_fn (Cast.cast_trensor_to_fp16 true)) args kwargs
  = Raise RuntimeError /\
  cast_float_arguments (tensor_fn (Cast.cast_trensor_to_fp16 false)) args kwargs
  = Ok (PTuple [PTensor (Cast.mkTensor Cast.float16 true true)],
        PDict [("x"%string, PTensor Cast.fp16_leaf)]).
Proof. split; reflexivity. Qed.

End CastArguments.

Module StateDict.

(** ** replace_state_dict_prefix *)

(** [key.startswith(prefix)]. *)
Definition startswith (key prefix : string) : bool := String.prefix prefix key.

(** [key[n:]] for [n >= 0]. *)
Fixpoint slice_from (key : string) (n : nat) {struct n} : string :=
  match n, key with
  | O, _ => key
  | S n', String _ rest => slice_from rest n'
  | S _, EmptyString => EmptyString
  end.

(** Line 122: [new_prefix + key[len(old_prefix):]]. *)
Definition rename_key (old_prefix new_prefix key : string) : string :=
  String.append new_prefix (slice_from key (String.length old_prefix)).

Section Renaming.

(** The values of the mapping (tensors). *)
Variable V : Type.

(** A dict with string keys: its items in insertion order, no key twice. *)
Definition Dict : Type := list (string * V).

(** [list(d.keys())]. *)
Definition keys (d : Dict) : list string := map fst d.

(** [d.get(key)]: the value bound to [key], if any. *)
Fixpoint dict_get (d : Dict) (key : string) : option V :=
  match d with
  | [] => None
  | (k, v) :: d' => if String.eqb k key then Some v else dict_get d' key
  end.

(** [d[key] = v]: a key of the dict keeps its place, a new key goes last. *)
Definition dict_set (d : Dict) (key : string) (v : V) : Dict :=
  match dict_get d key with
  | Some _ => map (fun kv => if String.eqb (fst kv) key then (fst kv, v) else kv) d
  | None => d ++ [(key, v)]
  end.

(** [del d[key]]: [None] stands for the KeyError of a key that is not there. *)
Definition dict_del (d : Dict) (key : string) : option Dict :=
  match dict_get d key with
  | Some _ => Some (filter (fun kv => negb (String.eqb (fst kv) key)) d)
  | None => None
  end.

(** The [for] loop of lines 119-124 over the keys [ks]: the exception raised,
    if any, and the dict as the loop leaves it. *)
Fixpoint rename_loop (old_prefix new_prefix : string) (ks : list string) (d : Dict)
  : option exn * Dict :=
  match ks with
  | [] => (None, d)
  | key :: ks' =>
      if negb (startswith key old_prefix) then rename_loop old_prefix new_prefix ks' d
      else
        let new_key := rename_key old_prefix new_prefix key in
        match dict_get d key with
        | None => (Some KeyError, d)
        | Some v =>
            let d1 := dict_set d new_key v in
            match dict_del d1 key with
            | None => (Some KeyError, d1)
            | Some d2 => rename_loop old_prefix new_prefix ks' d2
            end
        end
  end.

(** Lines 105-124: the exception raised, if any, and the dict after the
    call. *)
Definition replace_state_dict_prefix (state_dict : Dict) (old_prefix new_prefix : string)
  : option exn * Dict :=
  if String.eqb old_prefix new_prefix then (Some ValueError, state_dict)
  else rename_loop old_prefix new_prefix (keys state_dict) state_dict.

(** Two dicts bind the same keys to the same values. *)
Definition same_contents (d1 d2 : Dict) : Prop :=
  forall key, dict_get d1 key = dict_get d2 key.

(** [d'] is [d] with the prefix replaced: every key of [d] with the old prefix
    is bound under its new name to its value and is gone under its old name,
    and every other key of [d] has its value. *)
Definition renamed (old_prefix new_prefix : string) (d d' : Dict) : Prop :=
  (forall key v, dict_get d key = Some v -> startswith key old_prefix = true ->
     dict_get d' (rename_key old_prefix new_prefix key) = Some v) /\
  (forall key, In key (keys d) -> startswith key old_prefix = true ->
     dict_get d' key = None) /\
  (forall key, In key (keys d) -> startswith key old_prefix = false ->
     dict_get d' key = dict_get d key).

(** What the loop over the keys [ks] makes of [d]: the keys of [ks] with the
    old prefix are bound under their new names to what they were bound to and
    are unbound under their old names; every other key that is no such new
    name reads as before. *)
Definition loop_post (old_prefix new_prefix : string) (ks : list string) (d d' : Dict) : Prop :=
  (forall k, In k ks -> startswith k old_prefix = true ->
     dict_get d' (rename_key old_prefix new_prefix k) = dict_get d k) /\
  (forall k, In k ks -> startswith k old_prefix = true -> dict_get d' k = None) /\
  (forall x,
     ~ (In x ks /\ startswith x old_prefix = true) ->
     (forall k, In k ks -> startswith k old_prefix = true ->
        rename_key old_prefix new_prefix k <> x) ->
     dict_get d' x = dict_get d x).

(** The loop run over the keys in any order ends with the contents [d']. *)
Definition order_independent (old_prefix new_prefix : string) (d d' : Dict) : Prop :=
  forall ks, Permutation ks (keys d) ->
    exists d'', rename_loop old_prefix new_prefix ks d = (None, d'') /\
                same_contents d'' d'.

(** The call returns, with the prefix replaced and whatever the order of the
    keys. *)
Definition replaces_prefix (d : Dict) (old_prefix new_prefix : string) : Prop :=
  exists d', replace_state_dict_prefix d old_prefix new_prefix = (None, d') /\
             renamed old_prefix new_prefix d d' /\
             order_independent old_prefix new_prefix d d'.

(** No key with the old prefix has a new name that is already a key. *)
Definition no_collision (d : Dict) (old_prefix new_prefix : string) : Prop :=
  forall key, In key (keys d) -> startswith key old_prefix = true ->
    ~ In (rename_key old_prefix new_prefix key) (keys d).

End Renaming.

Arguments keys {V} d.
Arguments dict_get {V} d key.
Arguments dict_set {V} d key v.
Arguments dict_del {V} d key.
Arguments rename_loop {V} old_prefix new_prefix ks d.
Arguments replace_state_dict_prefix {V} state_dict old_prefix new_prefix.
Arguments same_contents {V} d1 d2.
Arguments renamed {V} old_prefix new_prefix d d'.
Arguments order_independent {V} old_prefix new_prefix d d'.
Arguments replaces_prefix {V} d old_prefix new_prefix.
Arguments no_collision {V} d old_prefix new_prefix.
Arguments loop_post {V} old_prefix new_prefix ks d d'.

(** *** Strings *)

Lemma startswith_split (key prefix : string) :
  startswith key prefix = true ->
  key = String.append prefix (slice_from key (String.length prefix)).
Proof.
  unfold startswith. revert key.
  induction prefix as [|a prefix IH]; intros key Hp; [reflexivity|].
  destruct key as [|b key]; cbn [String.prefix] in Hp; [discriminate|].
  destruct (ascii_dec a b) as [->|]; [|discriminate].
  cbn [String.length slice_from String.append]. f_equal. apply IH. exact Hp.
Qed.

Lemma append_cancel_l (p a b : string) :
  String.append p a = String.append p b -> a = b.
Proof.
  induction p as [|c p IH]; cbn [String.append]; intros H; [exact H|].
  injection H as H. apply IH. exact H.
Qed.

(** Keys with the old prefix keep apart under renaming. *)
Lemma rename_key_inj (old_prefix new_prefix k1 k2 : string) :
  startswith k1 old_prefix = true -> startswith k2 old_prefix = true ->
  rename_key old_prefix new_prefix k1 = rename_key old_prefix new_prefix k2 ->
  k1 = k2.
Proof.
  intros H1 H2 Heq. unfold rename_key in Heq. apply append_cancel_l in Heq.
  rewrite (startswith_split k1 old_prefix H1), (startswith_split k2 old_prefix H2).
  rewrite Heq. reflexivity.
Qed.

Section RenamingFacts.

Variable V : Type.

(** *** Reading a dict after an assignment or a deletion *)

Lemma dict_get_In (d : Dict V) (key : string) :
  In key (keys d) <-> dict_get d key <> None.
Proof.
  induction d as [|[k v] d IH]; cbn [keys map fst In dict_get].
  - split; [intros [] | congruence].
  - destruct (String.eqb_spec k key) as [->|Hne].
    + split; [discriminate | intros _; left; reflexivity].
    + rewrite <- IH. unfold keys. split; [intros [H|H]; [congruence | exact H] | right; assumption].
Qed.

Lemma dict_get_update (d : Dict V) (key x : string) (v : V) :
  dict_get (map (fun kv => if String.eqb (fst kv) key then (fst kv, v) else kv) d) x
  = if String.eqb key x
    then match dict_get d x with Some _ => Some v | None => None end
    else dict_get d x.
Proof.
  induction d as [|[k w] d IH]; cbn [map fst dict_get].
  - destruct (String.eqb key x); reflexivity.
  - destruct (String.eqb_spec k key) as [->|Hk]; cbn [dict_get fst].
    + destruct (String.eqb_spec key x) as [->|Hx]; [reflexivity|].
      rewrite IH. destruct (String.eqb_spec key x); [congruence | reflexivity].
    + destruct (String.eqb_spec k x) as [->|Hx].
      * destruct (String.eqb_spec key x); [congruence | reflexivity].
      * exact IH.
Qed.

Lemma dict_get_append (d : Dict V) (key x : string) (v : V) :
  dict_get (d ++ [(key, v)]) x
  = match dict_get d x with
    | Some w => Some w
    | None => if String.eqb key x then Some v else None
    end.
Proof.
  induction d as [|[k w] d IH]; cbn [app dict_get]; [reflexivity|].
  destruct (String.eqb k x); [reflexivity | exact IH].
Qed.

Lemma dict_get_set (d : Dict V) (key x : string) (v : V) :
  dict_get (dict_set d key v) x
  = if String.eqb key x then Some v else dict_get d x.
Proof.
  unfold dict_set. destruct (dict_get d key) as [w|] eqn:Hkey.
  - rewrite dict_get_update.
    destruct (String.eqb_spec key x) as [<-|]; [rewrite Hkey|]; reflexivity.
  - rewrite dict_get_append.
    destruct (String.eqb_spec key x) as [<-|]; [rewrite Hkey; reflexivity|].
    destruct (dict_get d x); reflexivity.
Qed.

Lemma dict_get_filter (d : Dict V) (key x : string) :
  dict_get (filter (fun kv => negb (String.eqb (fst kv) key)) d) x
  = if String.eqb key x then None else dict_get d x.
Proof.
  induction d as [|[k w] d IH]; cbn [filter fst dict_get].
  - destruct (String.eqb key x); reflexivity.
  - destruct (String.eqb_spec k key) as [->|Hk]; cbn [negb dict_get].
    + rewrite IH. destruct (String.eqb_spec key x); reflexivity.
    + destruct (String.eqb_spec k x) as [->|Hx]; [|exact IH].
      destruct (String.eqb_spec key x); [congruence | reflexivity].
Qed.

(** One turn of the loop on a key that has the old prefix and is bound. *)
Lemma rename_step (old_prefix new_prefix key : string) (d : Dict V) (v : V) :
  dict_get d key = Some v ->
  rename_key old_prefix new_prefix key <> key ->
  exists d2,
    dict_del (dict_set d (rename_key old_prefix new_prefix key) v) key = Some d2 /\
    forall x, dict_get d2 x
              = if String.eqb key x then None
                else if String.eqb (rename_key old_prefix new_prefix key) x then Some v
                else dict_get d x.
Proof.
  intros Hget Hne. unfold dict_del.
  assert (Hthere : dict_get (dict_set d (rename_key old_prefix new_prefix key) v) key = Some v).
  { rewrite dict_get_set.
    destruct (String.eqb_spec (rename_key old_prefix new_prefix key) key);
      [reflexivity | exact Hget]. }
  rewrite Hthere. eexists. split; [reflexivity|].
  intros x. rewrite dict_get_filter, dict_get_set. reflexivity.
Qed.

(** *** The loop *)

(** The loop over distinct keys that are bound, none of whose new names is
    one of them, returns and leaves the dict as [loop_post] says. *)
Lemma rename_loop_spec (old_prefix new_prefix : string) (ks : list string) :
  forall d : Dict V,
    NoDup ks ->
    (forall k, In k ks -> startswith k old_prefix = true -> dict_get d k <> None) ->
    (forall k k', In k ks -> In k' ks ->
       startswith k old_prefix = true -> startswith k' old_prefix = true ->
       rename_key old_prefix new_prefix k <> k') ->
    exists d', rename_loop old_prefix new_prefix ks d = (None, d') /\
               loop_post old_prefix new_prefix ks d d'.
Proof.
  induction ks as [|key ks IH]; intros d Hnodup Hbound Hfresh.
  - exists d. split; [reflexivity|].
    repeat split; try (intros k []); reflexivity.
  - inversion Hnodup as [|? ? Hnotin Hnodup']; subst.
    cbn [rename_loop].
    destruct (startswith key old_prefix) eqn:Hstart; cbn [negb].
    + destruct (dict_get d key) as [v|] eqn:Hget;
        [|exfalso; apply (Hbound key); [left; reflexivity | exact Hstart | exact Hget]].
      assert (Hself : rename_key old_prefix new_prefix key <> key).
      { apply Hfresh; try (left; reflexivity); exact Hstart. }
      destruct (rename_step old_prefix new_prefix key d v Hget Hself) as (d2 & Hdel & Hd2).
      rewrite Hdel.
      assert (Hd2_other : forall k, In k ks -> startswith k old_prefix = true ->
                                    dict_get d2 k = dict_get d k).
      { intros k Hk Hks. rewrite Hd2.
        destruct (String.eqb_spec key k) as [->|_]; [contradiction|].
        destruct (String.eqb_spec (rename_key old_prefix new_prefix key) k) as [Heq|_];
          [|reflexivity].
        exfalso. apply (Hfresh key k); try assumption; [left; reflexivity | right; exact Hk]. }
      destruct (IH d2 Hnodup') as (d' & Hrun & Hnew & Hold & Hrest).
      { intros k Hk Hks. rewrite Hd2_other by assumption.
        apply Hbound; [right; exact Hk | exact Hks]. }
      { intros k k' Hk Hk'. apply Hfresh; right; assumption. }
      exists d'. split; [exact Hrun|]. split; [|split].
      * intros k [<-|Hk] Hks.
        -- rewrite Hrest, Hd2.
           ++ destruct (String.eqb_spec key (rename_key old_prefix new_prefix key));
                [congruence|].
              rewrite String.eqb_refl. symmetry. exact Hget.
           ++ intros [Hin Hs]. apply (Hfresh key (rename_key old_prefix new_prefix key));
                try assumption; [left; reflexivity | right; exact Hin | reflexivity].
           ++ intros k Hk Hks' Heq.
              apply rename_key_inj in Heq; [|assumption|assumption]. congruence.
        -- rewrite Hnew by assumption. apply Hd2_other; assumption.
      * intros k [<-|Hk] Hks; [|apply Hold; assumption].
        rewrite Hrest, Hd2.
        -- rewrite String.eqb_refl. reflexivity.
        -- intros [Hin _]. contradiction.
        -- intros k Hk Hks'. apply Hfresh; try assumption; [right; exact Hk | left; reflexivity].
      * intros x Hx Hnames. rewrite Hrest, Hd2.
        -- destruct (String.eqb_spec key x) as [<-|_];
             [exfalso; apply Hx; split; [left; reflexivity | exact Hstart]|].
           destruct (String.eqb_spec (rename_key old_prefix new_prefix key) x) as [Heq|_];
             [|reflexivity].
           exfalso. apply (Hnames key); [left; reflexivity | exact Hstart | exact Heq].
        -- intros [Hin Hs]. apply Hx. split; [right; exact Hin | exact Hs].
        -- intros k Hk. apply Hnames. right. exact Hk.
    + destruct (IH d Hnodup') as (d' & Hrun & Hnew & Hold & Hrest).
      { intros k Hk. apply Hbound. right. exact Hk. }
      { intros k k' Hk Hk'. apply Hfresh; right; assumption. }
      exists d'. split; [exact Hrun|]. split; [|split].
      * intros k [<-|Hk] Hks; [congruence | apply Hnew; assumption].
      * intros k [<-|Hk] Hks; [congruence | apply Hold; assumption].
      * intros x Hx Hnames. apply Hrest.
        -- intros [Hin Hs]. apply Hx. split; [right; exact Hin | exact Hs].
        -- intros k Hk. apply Hnames. right. exact Hk.
Qed.

(** [loop_post] fixes the contents: two runs over the same keys, in whatever
    order, end with the same contents. *)
Lemma loop_post_same_contents (old_prefix new_prefix : string)
    (ks1 ks2 : list string) (d d1 d2 : Dict V) :
  (forall k, In k ks1 <-> In k ks2) ->
  loop_post old_prefix new_prefix ks1 d d1 ->
  loop_post old_prefix new_prefix ks2 d d2 ->
  same_contents d1 d2.
Proof.
  intros Hsame (Hnew1 & Hold1 & Hrest1) (Hnew2 & Hold2 & Hrest2) x.
  destruct (existsb (fun k => startswith k old_prefix
                              && String.eqb (rename_key old_prefix new_prefix k) x) ks1)
    eqn:Hex.
  - apply existsb_exists in Hex. destruct Hex as (k & Hk & Hcond).
    apply andb_true_iff in Hcond. destruct Hcond as [Hs Heq].
    apply String.eqb_eq in Heq. subst x.
    rewrite Hnew1, Hnew2; try assumption; [reflexivity | apply Hsame; exact Hk].
  - assert (Hnames : forall k, In k ks1 -> startswith k old_prefix = true ->
                               rename_key old_prefix new_prefix k <> x).
    { intros k Hk Hs Heq.
      assert (Hyes : existsb (fun k => startswith k old_prefix
                                && String.eqb (rename_key old_prefix new_prefix k) x) ks1
                     = true).
      { apply existsb_exists. exists k. split; [exact Hk|].
        rewrite Hs, Heq, String.eqb_refl. reflexivity. }
      congruence. }
    destruct (in_dec string_dec x ks1) as [Hin|Hout].
    + destruct (startswith x old_prefix) eqn:Hs.
      * rewrite Hold1, Hold2; try assumption; [reflexivity | apply Hsame; exact Hin].
      * rewrite Hrest1, Hrest2; try reflexivity.
        -- intros [_ Habs]. congruence.
        -- intros k Hk. apply Hnames. apply Hsame. exact Hk.
        -- intros [_ Habs]. congruence.
        -- exact Hnames.
    + rewrite Hrest1, Hrest2; try reflexivity.
      * intros [Habs _]. apply Hout. apply Hsame. exact Habs.
      * intros k Hk. apply Hnames. apply Hsame. exact Hk.
      * intros [Habs _]. contradiction.
      * exact Hnames.
Qed.

(** The loop raises no ValueError. *)
Lemma rename_loop_no_value_error (old_prefix new_prefix : string) (ks : list string) :
  forall d : Dict V, fst (rename_loop old_prefix new_prefix ks d) <> Some ValueError.
Proof.
  induction ks as [|key ks IH]; intros d; cbn [rename_loop]; [discriminate|].
  destruct (negb (startswith key old_prefix)); [apply IH|].
  destruct (dict_get d key) as [v|]; [|discriminate].
  destruct (dict_del _ key) as [d2|]; [apply IH | discriminate].
Qed.

(** C6, as amended: for distinct prefixes and a mapping in which no key with
    the old prefix has a new name that is already a key, the call returns;
    every key that started with the old prefix is then bound under its new
    name (new prefix, same remainder) to its value and is gone under its old
    name, every other key has its value, and the loop run over the keys in
    any order ends with the same contents. *)
Theorem replace_state_dict_prefix_renames (d : Dict V) (old_prefix new_prefix : string) :
  NoDup (keys d) ->
  old_prefix <> new_prefix ->
  no_collision d old_prefix new_prefix ->
  replaces_prefix d old_prefix new_prefix.
Proof.
  intros Hnodup Hdistinct Hfree.
  assert (Hbound : forall ks, (forall k, In k ks <-> In k (keys d)) ->
            forall k, In k ks -> startswith k old_prefix = true -> dict_get d k <> None).
  { intros ks Hks k Hk _. apply dict_get_In, Hks, Hk. }
  assert (Hfresh : forall ks, (forall k, In k ks <-> In k (keys d)) ->
            forall k k', In k ks -> In k' ks ->
              startswith k old_prefix = true -> startswith k' old_prefix = true ->
              rename_key old_prefix new_prefix k <> k').
  { intros ks Hks k k' Hk Hk' Hs _ Heq.
    apply (Hfree k); [apply Hks; exact Hk | exact Hs|].
    rewrite Heq. apply Hks. exact Hk'. }
  assert (Hself : forall k, In k (keys d) <-> In k (keys d)) by (intros k; reflexivity).
  destruct (rename_loop_spec old_prefix new_prefix (keys d) d Hnodup
              (Hbound _ Hself) (Hfresh _ Hself)) as (d' & Hrun & Hpost).
  exists d'. split; [|split].
  - unfold replace_state_dict_prefix.
    destruct (String.eqb_spec old_prefix new_prefix); [contradiction | exact Hrun].
  - destruct Hpost as (Hnew & Hold & Hrest). split; [|split].
    + intros key v Hget Hs. rewrite Hnew; [exact Hget | | exact Hs].
      apply dict_get_In. congruence.
    + exact Hold.
    + intros key Hin Hs. apply Hrest.
      * intros [_ Habs]. congruence.
      * intros k Hk Hks Heq. apply (Hfree k Hk Hks). rewrite Heq. exact Hin.
  - intros ks Hperm.
    assert (Hks : forall k, In k ks <-> In k (keys d)).
    { intros k. split; apply Permutation_in; [exact Hperm | symmetry; exact Hperm]. }
    destruct (rename_loop_spec old_prefix new_prefix ks d) as (d'' & Hrun' & Hpost').
    + eapply Permutation_NoDup; [symmetry; exact Hperm | exact Hnodup].
    + apply Hbound. exact Hks.
    + apply Hfresh. exact Hks.
    + exists d''. split; [exact Hrun'|].
      eapply loop_post_same_contents; [exact Hks | exact Hpost' | exact Hpost].
Qed.

(** C7: the call raises a ValueError exactly when the two prefixes are equal,
    and the mapping is then as it was. *)
Theorem replace_state_dict_prefix_value_error (d : Dict V) (old_prefix new_prefix : string) :
  (fst (replace_state_dict_prefix d old_prefix new_prefix) = Some ValueError
   <-> old_prefix = new_prefix) /\
  (fst (replace_state_dict_prefix d old_prefix new_prefix) = Some ValueError ->
   snd (replace_state_dict_prefix d old_prefix new_prefix) = d).
Proof.
  unfold replace_state_dict_prefix.
  destruct (String.eqb_spec old_prefix new_prefix) as [Heq|Hne]; cbn [fst snd].
  - split; [split; [intros _; exact Heq | reflexivity] | reflexivity].
  - split.
    + split; [|contradiction].
      intros Hraise. exfalso. eapply rename_loop_no_value_error. exact Hraise.
    + intros Hraise. exfalso. eapply rename_loop_no_value_error. exact Hraise.
Qed.

End RenamingFacts.

(** *** Further facts on the renaming *)

(** The entry of a key with the old prefix, under its new name. *)
Definition rename_item {V : Type} (old_prefix new_prefix : string)
    (kv : string * V) : string * V :=
  (rename_key old_prefix new_prefix (fst kv), snd kv).

(** The key of an entry has the prefix. *)
Definition has_prefix {V : Type} (prefix : string) (kv : string * V) : bool :=
  startswith (fst kv) prefix.

Lemma startswith_append (prefix rest : string) :
  startswith (String.append prefix rest) prefix = true.
Proof.
  unfold startswith. induction prefix as [|a prefix IH]; cbn [String.append String.prefix].
  - destruct rest; reflexivity.
  - destruct (ascii_dec a a); [exact IH | congruence].
Qed.

Lemma slice_from_append (prefix rest : string) :
  slice_from (String.append prefix rest) (String.length prefix) = rest.
Proof.
  induction prefix as [|a prefix IH]; cbn [String.append String.length slice_from];
    [reflexivity | exact IH].
Qed.

(** Renaming back gives the key back. *)
Lemma rename_key_back (old_prefix new_prefix key : string) :
  startswith key old_prefix = true ->
  rename_key new_prefix old_prefix (rename_key old_prefix new_prefix key) = key.
Proof.
  intros Hs. unfold rename_key at 1. unfold rename_key.
  rewrite slice_from_append. symmetry. apply startswith_split. exact Hs.
Qed.

Section RenamingMore.

Variable V : Type.

Lemma rename_loop_no_key_error (old_prefix new_prefix : string) (ks : list string) :
  forall d : Dict V,
    NoDup ks ->
    (forall k, In k ks -> dict_get d k <> None) ->
    fst (rename_loop old_prefix new_prefix ks d) = None.
Proof.
  induction ks as [|key ks IH]; intros d Hnodup Hbound; [reflexivity|].
  inversion Hnodup as [|? ? Hnotin Hnodup']; subst.
  cbn [rename_loop].
  destruct (negb (startswith key old_prefix)).
  - apply IH; [exact Hnodup'|]. intros k Hk. apply Hbound. right. exact Hk.
  - destruct (dict_get d key) as [v|] eqn:Hget;
      [|exfalso; apply (Hbound key); [left; reflexivity | exact Hget]].
    unfold dict_del. rewrite dict_get_set.
    replace (if String.eqb (rename_key old_prefix new_prefix key) key
             then Some v else dict_get d key) with (Some v)
      by (rewrite Hget; destruct (String.eqb _ key); reflexivity).
    apply IH; [exact Hnodup'|].
    intros k Hk. rewrite dict_get_filter, dict_get_set.
    destruct (String.eqb_spec key k) as [->|_]; [contradiction|].
    destruct (String.eqb (rename_key old_prefix new_prefix key) k); [discriminate|].
    apply Hbound. right. exact Hk.
Qed.

(** X19: on a dict (no key twice) the only exception the call can raise is
    the ValueError of equal prefixes: for distinct prefixes it returns, also
    when a new name is already a key of the mapping. *)
Theorem replace_state_dict_prefix_raises (d : Dict V) (old_prefix new_prefix : string) :
  NoDup (keys d) ->
  fst (replace_state_dict_prefix d old_prefix new_prefix)
  = if String.eqb old_prefix new_prefix then Some ValueError else None.
Proof.
  intros Hnodup. unfold replace_state_dict_prefix.
  destruct (String.eqb old_prefix new_prefix); [reflexivity|].
  apply rename_loop_no_key_error; [exact Hnodup|].
  intros k Hk. apply dict_get_In. exact Hk.
Qed.

Lemma rename_loop_no_match (old_prefix new_prefix : string) (ks : list string)
    (d : Dict V) :
  (forall k, In k ks -> startswith k old_prefix = false) ->
  rename_loop old_prefix new_prefix ks d = (None, d).
Proof.
  induction ks as [|key ks IH]; intros Hnone; [reflexivity|].
  cbn [rename_loop]. rewrite (Hnone key) by (left; reflexivity). cbn [negb].
  apply IH. intros k Hk. apply Hnone. right. exact Hk.
Qed.

(** X20: for distinct prefixes, a mapping none of whose keys starts with the
    old prefix (the empty mapping too) is returned as it is, items and order. *)
Theorem replace_state_dict_prefix_no_match (d : Dict V) (old_prefix new_prefix : string) :
  old_prefix <> new_prefix ->
  (forall k, In k (keys d) -> startswith k old_prefix = false) ->
  replace_state_dict_prefix d old_prefix new_prefix = (None, d).
Proof.
  intros Hdistinct Hnone. unfold replace_state_dict_prefix.
  destruct (String.eqb_spec old_prefix new_prefix); [contradiction|].
  apply rename_loop_no_match. exact Hnone.
Qed.

(** *** The order of the items after the call *)

Lemma keys_app (l1 l2 : Dict V) : keys (l1 ++ l2) = keys l1 ++ keys l2.
Proof. unfold keys. apply map_app. Qed.

Lemma keys_cons (k : string) (v : V) (l : Dict V) : keys ((k, v) :: l) = k :: keys l.
Proof. reflexivity. Qed.

Lemma dict_get_app (l1 l2 : Dict V) (x : string) :
  dict_get (l1 ++ l2) x
  = match dict_get l1 x with Some v => Some v | None => dict_get l2 x end.
Proof.
  induction l1 as [|[k w] l1 IH]; cbn [app dict_get]; [reflexivity|].
  destruct (String.eqb k x); [reflexivity | exact IH].
Qed.

Lemma dict_get_notin (l : Dict V) (x : string) :
  ~ In x (keys l) -> dict_get l x = None.
Proof.
  intros Hout. destruct (dict_get l x) as [v|] eqn:Hget; [|reflexivity].
  exfalso. apply Hout. apply dict_get_In. congruence.
Qed.

Lemma filter_key_notin (l : Dict V) (k : string) :
  ~ In k (keys l) -> filter (fun kv => negb (String.eqb (fst kv) k)) l = l.
Proof.
  induction l as [|[k' w] l IH]; intros Hout; [reflexivity|].
  cbn [filter fst]. cbn [keys map fst In] in Hout.
  destruct (String.eqb_spec k' k) as [->|_]; [exfalso; apply Hout; left; reflexivity|].
  cbn [negb]. f_equal. apply IH. intros Hin. apply Hout. right. exact Hin.
Qed.

Lemma NoDup_snoc (A : Type) (l : list A) (x : A) :
  NoDup l -> ~ In x l -> NoDup (l ++ [x]).
Proof.
  intros Hl Hx. apply (Permutation_NoDup (l := x :: l)).
  - apply Permutation_cons_append.
  - constructor; assumption.
Qed.

(** The loop over the keys of [todo], a stretch of the dict: the items of
    [todo] with the old prefix leave their place and go last under their new
    names, in their order; all other items stay where they are. *)
Lemma rename_loop_order (old_prefix new_prefix : string) (todo : Dict V) :
  forall front back : Dict V,
    NoDup (keys (front ++ todo ++ back)) ->
    (forall k, In k (keys todo) -> startswith k old_prefix = true ->
       ~ In (rename_key old_prefix new_prefix k) (keys (front ++ todo ++ back))) ->
    rename_loop old_prefix new_prefix (keys todo) (front ++ todo ++ back)
    = (None,
       front ++ filter (fun kv => negb (has_prefix old_prefix kv)) todo
             ++ back ++ map (rename_item old_prefix new_prefix)
                            (filter (has_prefix old_prefix) todo)).
Proof.
  induction todo as [|[k v] todo IH]; intros front back Hnodup Hfresh.
  - cbn [keys map rename_loop filter app]. rewrite app_nil_r. reflexivity.
  - cbn [keys map fst rename_loop]. change (map fst todo) with (keys todo).
    unfold has_prefix at 1 2. cbn [filter fst].
    destruct (startswith k old_prefix) eqn:Hs; cbn [negb].
    + pose proof (Hfresh k (or_introl eq_refl) Hs) as Hnew.
      pose proof Hnodup as Hdup. rewrite keys_app in Hdup.
      cbn [app keys map fst] in Hdup. apply NoDup_remove in Hdup.
      change (map fst (todo ++ back)) with (keys (todo ++ back)) in Hdup.
      destruct Hdup as [Hrest Hk].
      assert (HkL : ~ In k (keys front)) by (intros H; apply Hk, in_or_app; left; exact H).
      assert (HkR : ~ In k (keys (todo ++ back)))
        by (intros H; apply Hk, in_or_app; right; exact H).
      assert (Hget : dict_get (front ++ (k, v) :: todo ++ back) k = Some v).
      { rewrite dict_get_app, (dict_get_notin front k HkL).
        cbn [dict_get]. rewrite String.eqb_refl. reflexivity. }
      cbn [app]. rewrite Hget. unfold dict_set, dict_del.
      cbn [app] in Hnew. rewrite (dict_get_notin _ _ Hnew).
      rewrite dict_get_append, Hget.
      assert (Hself : String.eqb (rename_key old_prefix new_prefix k) k = false).
      { apply String.eqb_neq. intros Heq. apply Hnew. rewrite Heq, keys_app.
        apply in_or_app. right. left. reflexivity. }
      rewrite !filter_app. cbn [filter fst]. rewrite String.eqb_refl, Hself. cbn [negb].
      rewrite (filter_key_notin front k HkL).
      rewrite (filter_key_notin (todo ++ back) k HkR).
      rewrite <- !app_assoc.
      rewrite (IH front (back ++ [(rename_key old_prefix new_prefix k, v)])).
      * cbn [map]. unfold rename_item at 2. cbn [fst snd].
        rewrite <- !app_assoc. reflexivity.
      * replace (front ++ todo ++ back ++ [(rename_key old_prefix new_prefix k, v)])
          with ((front ++ todo ++ back) ++ [(rename_key old_prefix new_prefix k, v)])
          by (rewrite <- !app_assoc; reflexivity).
        rewrite keys_app. apply NoDup_snoc; [rewrite keys_app; exact Hrest|].
        intros Hin. apply Hnew. rewrite keys_app, keys_cons, in_app_iff. cbn [In].
        rewrite keys_app, in_app_iff in Hin. tauto.
      * intros k' Hk' Hs' Hin.
        replace (front ++ todo ++ back ++ [(rename_key old_prefix new_prefix k, v)])
          with ((front ++ todo ++ back) ++ [(rename_key old_prefix new_prefix k, v)])
          in Hin by (rewrite <- !app_assoc; reflexivity).
        rewrite keys_app, in_app_iff in Hin. destruct Hin as [Hin|[Heq|[]]].
        -- apply (Hfresh k' (or_intror Hk') Hs'). cbn [app].
           rewrite keys_app, keys_cons, in_app_iff. cbn [In].
           rewrite keys_app, in_app_iff in Hin. tauto.
        -- cbn [fst] in Heq. apply rename_key_inj in Heq; [|assumption|assumption].
           apply HkR. rewrite keys_app. apply in_or_app. left. congruence.
    + assert (Hshift : front ++ ((k, v) :: todo) ++ back
                       = (front ++ [(k, v)]) ++ todo ++ back)
        by (rewrite <- app_assoc; reflexivity).
      rewrite Hshift.
      rewrite (IH (front ++ [(k, v)]) back).
      * rewrite <- app_assoc. reflexivity.
      * rewrite <- Hshift. exact Hnodup.
      * intros k' Hk' Hs'. rewrite <- Hshift.
        apply (Hfresh k' (or_intror Hk') Hs').
Qed.

(** For distinct prefixes and no new name that is already a key, the dict
    after the call: the items without the old prefix in their order, then
    the renamed items in their order. *)
Lemma replace_state_dict_prefix_value (d : Dict V) (old_prefix new_prefix : string) :
  NoDup (keys d) ->
  old_prefix <> new_prefix ->
  no_collision d old_prefix new_prefix ->
  replace_state_dict_prefix d old_prefix new_prefix
  = (None,
     filter (fun kv => negb (has_prefix old_prefix kv)) d
     ++ map (rename_item old_prefix new_prefix) (filter (has_prefix old_prefix) d)).
Proof.
  intros Hnodup Hdistinct Hfree. unfold replace_state_dict_prefix.
  destruct (String.eqb_spec old_prefix new_prefix); [contradiction|].
  pose proof (rename_loop_order old_prefix new_prefix d [] []) as Horder.
  cbn [app] in Horder. rewrite !app_nil_r in Horder.
  apply Horder; [exact Hnodup | exact Hfree].
Qed.

Lemma filter_partition_length (A : Type) (f : A -> bool) (l : list A) :
  (length (filter (fun x => negb (f x)) l) + length (filter f l))%nat = length l.
Proof.
  induction l as [|x l IH]; [reflexivity|].
  cbn [filter]. destruct (f x); cbn [negb length]; lia.
Qed.

(** X21: for distinct prefixes and no new name that is already a key, the
    mapping after the call holds the items whose key lacks the old prefix,
    in their order, followed by the renamed items, in their order: renamed
    items move to the end, and the number of items is unchanged. *)
Theorem replace_state_dict_prefix_order (d : Dict V) (old_prefix new_prefix : string) :
  NoDup (keys d) ->
  old_prefix <> new_prefix ->
  no_collision d old_prefix new_prefix ->
  exists d',
    replace_state_dict_prefix d old_prefix new_prefix = (None, d') /\
    d' = filter (fun kv => negb (startswith (fst kv) old_prefix)) d
         ++ map (fun kv => (rename_key old_prefix new_prefix (fst kv), snd kv))
                (filter (fun kv => startswith (fst kv) old_prefix) d) /\
    length d' = length d.
Proof.
  intros Hnodup Hdistinct Hfree. eexists.
  split; [apply replace_state_dict_prefix_value; assumption|].
  split; [reflexivity|].
  rewrite length_app, length_map.
  apply (filter_partition_length _ (has_prefix old_prefix)).
Qed.

(** *** Renaming there and back *)

Lemma filter_all (A : Type) (f : A -> bool) (l : list A) :
  (forall x, In x l -> f x = true) -> filter f l = l.
Proof.
  induction l as [|x l IH]; intros Hall; [reflexivity|].
  cbn [filter]. rewrite (Hall x) by (left; reflexivity). f_equal.
  apply IH. intros y Hy. apply Hall. right. exact Hy.
Qed.

Lemma filter_none (A : Type) (f : A -> bool) (l : list A) :
  (forall x, In x l -> f x = false) -> filter f l = [].
Proof.
  induction l as [|x l IH]; intros Hall; [reflexivity|].
  cbn [filter]. rewrite (Hall x) by (left; reflexivity).
  apply IH. intros y Hy. apply Hall. right. exact Hy.
Qed.

Lemma in_keys (l : Dict V) (k : string) :
  In k (keys l) <-> exists v, In (k, v) l.
Proof.
  unfold keys. rewrite in_map_iff. split.
  - intros ([k' v] & Hk & Hin). cbn [fst] in Hk. subst k'. exists v. exact Hin.
  - intros (v & Hin). exists (k, v). split; [reflexivity | exact Hin].
Qed.

Lemma NoDup_keys_filter (f : string * V -> bool) (l : Dict V) :
  NoDup (keys l) -> NoDup (keys (filter f l)).
Proof.
  induction l as [|[k v] l IH]; intros Hnodup; [constructor|].
  rewrite keys_cons in Hnodup. inversion Hnodup as [|? ? Hout Hrest]; subst.
  cbn [filter]. destruct (f (k, v)); [|apply IH; exact Hrest].
  rewrite keys_cons. constructor; [|apply IH; exact Hrest].
  intros Hin. apply Hout. apply in_keys in Hin. destruct Hin as (w & Hin).
  apply filter_In in Hin. apply in_keys. exists w. apply Hin.
Qed.

Lemma NoDup_keys_renamed (old_prefix new_prefix : string) (l : Dict V) :
  NoDup (keys l) ->
  (forall kv, In kv l -> has_prefix old_prefix kv = true) ->
  NoDup (keys (map (rename_item old_prefix new_prefix) l)).
Proof.
  induction l as [|[k v] l IH]; intros Hnodup Hall; [constructor|].
  rewrite keys_cons in Hnodup. inversion Hnodup as [|? ? Hout Hrest]; subst.
  cbn [map]. unfold rename_item at 1. cbn [fst snd]. rewrite keys_cons.
  constructor.
  - intros Hin. apply in_keys in Hin. destruct Hin as (w & Hin).
    apply in_map_iff in Hin. destruct Hin as ([k' w'] & Heq & Hin).
    unfold rename_item in Heq. cbn [fst snd] in Heq. injection Heq as Hkey _.
    apply rename_key_inj in Hkey.
    + subst k'. apply Hout. apply in_keys. exists w'. exact Hin.
    + apply (Hall (k', w')). right. exact Hin.
    + apply (Hall (k, v)). left. reflexivity.
  - apply IH; [exact Hrest|]. intros kv Hkv. apply Hall. right. exact Hkv.
Qed.

Lemma dict_get_filter_key (f : string -> bool) (l : Dict V) (x : string) :
  dict_get (filter (fun kv => f (fst kv)) l) x
  = if f x then dict_get l x else None.
Proof.
  induction l as [|[k w] l IH]; cbn [filter fst dict_get].
  - destruct (f x); reflexivity.
  - destruct (String.eqb_spec k x) as [->|Hne].
    + destruct (f x) eqn:Hf; cbn [dict_get].
      * rewrite String.eqb_refl. reflexivity.
      * rewrite IH. try rewrite Hf. reflexivity.
    + destruct (f k); cbn [dict_get]; [|exact IH].
      destruct (String.eqb_spec k x); [congruence | exact IH].
Qed.

Lemma dict_get_partition (old_prefix : string) (d : Dict V) :
  same_contents
    (filter (fun kv => negb (startswith (fst kv) old_prefix)) d
     ++ filter (fun kv => startswith (fst kv) old_prefix) d)
    d.
Proof.
  intros x. rewrite dict_get_app.
  pose proof (dict_get_filter_key (fun k => negb (startswith k old_prefix)) d x) as Hno.
  pose proof (dict_get_filter_key (fun k => startswith k old_prefix) d x) as Hyes.
  cbn beta in Hno, Hyes. rewrite Hno, Hyes.
  destruct (startswith x old_prefix); cbn [negb]; [reflexivity|].
  destruct (dict_get d x); reflexivity.
Qed.

(** X22: for distinct prefixes and a mapping none of whose keys starts with
    the new prefix, replacing the old prefix by the new one and then the new
    one by the old one returns both times and gives back the contents of the
    mapping; the items that had the old prefix now come last. *)
Theorem replace_state_dict_prefix_roundtrip (d : Dict V) (old_prefix new_prefix : string) :
  NoDup (keys d) ->
  old_prefix <> new_prefix ->
  (forall k, In k (keys d) -> startswith k new_prefix = false) ->
  exists d1 d2,
    replace_state_dict_prefix d old_prefix new_prefix = (None, d1) /\
    replace_state_dict_prefix d1 new_prefix old_prefix = (None, d2) /\
    d2 = filter (fun kv => negb (startswith (fst kv) old_prefix)) d
         ++ filter (fun kv => startswith (fst kv) old_prefix) d /\
    same_contents d2 d.
Proof.
  intros Hnodup Hdistinct Hnew.
  assert (Hfree : no_collision d old_prefix new_prefix).
  { intros key _ _ Hin. apply Hnew in Hin. unfold rename_key in Hin.
    rewrite startswith_append in Hin. discriminate. }
  set (kept := filter (fun kv => negb (has_prefix old_prefix kv)) d).
  set (moved := filter (has_prefix old_prefix) d).
  assert (Hkept : forall kv, In kv kept -> has_prefix new_prefix kv = false).
  { intros kv Hin. apply filter_In in Hin. destruct Hin as [Hin _].
    apply Hnew. unfold keys. apply in_map. exact Hin. }
  assert (Hmoved : forall kv, In kv moved -> has_prefix old_prefix kv = true).
  { intros kv Hin. apply filter_In in Hin. apply Hin. }
  assert (Hrenamed : forall kv, In kv (map (rename_item old_prefix new_prefix) moved) ->
                                has_prefix new_prefix kv = true).
  { intros kv Hin. apply in_map_iff in Hin. destruct Hin as (kv0 & <- & _).
    unfold has_prefix, rename_item, rename_key. cbn [fst].
    apply startswith_append. }
  assert (Hnodup1 : NoDup (keys (kept ++ map (rename_item old_prefix new_prefix) moved))).
  { rewrite keys_app. apply NoDup_app.
    - apply NoDup_keys_filter. exact Hnodup.
    - apply NoDup_keys_renamed; [apply NoDup_keys_filter; exact Hnodup | exact Hmoved].
    - intros a Ha Hb. apply in_keys in Ha. destruct Ha as (v & Ha).
      apply in_keys in Hb. destruct Hb as (w & Hb).
      apply Hkept in Ha. apply Hrenamed in Hb.
      unfold has_prefix in Ha, Hb. cbn [fst] in Ha, Hb. congruence. }
  assert (Hfree1 : no_collision (kept ++ map (rename_item old_prefix new_prefix) moved)
                     new_prefix old_prefix).
  { intros key Hin Hs Hback.
    rewrite keys_app, in_app_iff in Hin. destruct Hin as [Hin|Hin].
    - apply in_keys in Hin. destruct Hin as (v & Hin). apply Hkept in Hin.
      unfold has_prefix in Hin. cbn [fst] in Hin. congruence.
    - apply in_keys in Hin. destruct Hin as (w & Hin).
      apply in_map_iff in Hin. destruct Hin as ([k0 v0] & Heq & Hin0).
      unfold rename_item in Heq. cbn [fst snd] in Heq. injection Heq as <- _.
      pose proof (Hmoved _ Hin0) as Hk0. unfold has_prefix in Hk0. cbn [fst] in Hk0.
      rewrite (rename_key_back old_prefix new_prefix k0 Hk0) in Hback.
      rewrite keys_app, in_app_iff in Hback. destruct Hback as [Hback|Hback].
      + apply in_keys in Hback. destruct Hback as (v & Hback).
        apply filter_In in Hback. destruct Hback as [_ Hno].
        unfold has_prefix in Hno. cbn [fst] in Hno. rewrite Hk0 in Hno. discriminate.
      + apply in_keys in Hback. destruct Hback as (v & Hback).
        apply Hrenamed in Hback. unfold has_prefix in Hback. cbn [fst] in Hback.
        apply filter_In in Hin0. destruct Hin0 as [Hin0 _].
        rewrite (Hnew k0) in Hback; [discriminate|].
        unfold keys. apply (in_map fst) in Hin0. exact Hin0. }
  exists (kept ++ map (rename_item old_prefix new_prefix) moved).
  eexists.
  split; [apply replace_state_dict_prefix_value; assumption|].
  split; [apply replace_state_dict_prefix_value; [exact Hnodup1 | congruence | exact Hfree1]|].
  assert (Hresult :
            filter (fun kv => negb (has_prefix new_prefix kv))
                   (kept ++ map (rename_item old_prefix new_prefix) moved)
            ++ map (rename_item new_prefix old_prefix)
                   (filter (has_prefix new_prefix)
                           (kept ++ map (rename_item old_prefix new_prefix) moved))
            = kept ++ moved).
  { rewrite !filter_app.
    rewrite (filter_all _ _ kept) by (intros kv Hin; rewrite (Hkept kv Hin); reflexivity).
    rewrite (filter_none _ _ (map _ moved))
      by (intros kv Hin; rewrite (Hrenamed kv Hin); reflexivity).
    rewrite (filter_none _ _ kept) by exact Hkept.
    rewrite (filter_all _ _ (map _ moved)) by exact Hrenamed.
    rewrite app_nil_r. cbn [app]. f_equal.
    rewrite map_map. rewrite <- (map_id moved) at 2.
    apply map_ext_in. intros [k v] Hin.
    pose proof (Hmoved _ Hin) as Hk. unfold has_prefix in Hk. cbn [fst] in Hk.
    unfold rename_item. cbn [fst snd].
    rewrite (rename_key_back old_prefix new_prefix k Hk). reflexivity. }
  rewrite Hresult. split; [reflexivity|].
  apply dict_get_partition.
Qed.

End RenamingMore.

Local Open Scope string_scope.

(** C6, as amended, at the spec's example: [{"layer.w": 7}] with "layer."
    replaced by "module.layer.". *)
Lemma replace_state_dict_prefix_renames_witness :
  NoDup (keys [("layer.w", 7)]) /\
  "layer." <> "module.layer." /\
  no_collision [("layer.w", 7)] "layer." "module.layer." /\
  replaces_prefix [("layer.w", 7)] "layer." "module.layer.".
Proof.
  assert (Hnodup : NoDup (keys [("layer.w", 7)])).
  { constructor; [intros [] | constructor]. }
  assert (Hdistinct : "layer." <> "module.layer.") by discriminate.
  assert (Hfree : no_collision [("layer.w", 7)] "layer." "module.layer.").
  { intros key [<-|[]] _ [Habs|[]]. discriminate Habs. }
  split; [exact Hnodup|]. split; [exact Hdistinct|]. split; [exact Hfree|].
  exact (replace_state_dict_prefix_renames Z [("layer.w", 7)] "layer." "module.layer."
           Hnodup Hdistinct Hfree).
Defined.

(** The spec's two examples. *)
Example replace_state_dict_prefix_examples :
  replace_state_dict_prefix [("layer.w", 7)] "layer." "module.layer."
  = (None, [("module.layer.w", 7)])
  /\ replace_state_dict_prefix [("layer.w", 7)] "x" "x"
     = (Some ValueError, [("layer.w", 7)]).
Proof. split; reflexivity. Qed.

(** C6, as stated, fails on [{"a.x": 1, "b.x": 2}] with "a." replaced by
    "b.": the new name of "a.x" is the key "b.x", which does not start with
    "a." and loses its value 2. *)
Lemma replace_state_dict_prefix_overwrites :
  NoDup (keys [("a.x", 1); ("b.x", 2)]) /\
  "a." <> "b." /\
  replace_state_dict_prefix [("a.x", 1); ("b.x", 2)] "a." "b." = (None, [("b.x", 1)]) /\
  ~ replaces_prefix [("a.x", 1); ("b.x", 2)] "a." "b.".
Proof.
  split; [|split; [discriminate | split; [reflexivity|]]].
  - constructor; [intros [Habs|[]]; discriminate Habs|].
    constructor; [intros [] | constructor].
  - intros (d' & Hrun & (_ & _ & Hkeep) & _).
    vm_compute in Hrun. injection Hrun as <-.
    specialize (Hkeep "b.x" (or_intror (or_introl eq_refl)) eq_refl).
    discriminate Hkeep.
Qed.

(** With "a" replaced by "aa" in [{"ab": 1, "aab": 2}] the new name of "ab"
    is the key "aab", and the two orders of the keys end differently. *)
Example rename_loop_order_matters :
  rename_loop "a" "aa" ["ab"; "aab"] [("ab", 1); ("aab", 2)]
  = (None, [("aaab", 1)])
  /\ rename_loop "a" "aa" ["aab"; "ab"] [("ab", 1); ("aab", 2)]
     = (None, [("aaab", 2); ("aab", 1)]).
Proof. split; reflexivity. Qed.

(** Goals on the keys of a dict that is written out. *)
Ltac solve_keys :=
  repeat match goal with
         | |- NoDup _ => constructor
         | |- ~ _ => intros ?
         | H : In _ _ |- _ => cbn in H
         | H : _ \/ _ |- _ => destruct H
         | H : False |- _ => destruct H
         | H : ?x = ?y |- _ => first [discriminate H | subst]
         end.

(** X19 at a mapping in which the new name of "a.x" is the key "b.x". *)
Lemma replace_state_dict_prefix_raises_witness :
  NoDup (keys [("a.x", 1); ("b.x", 2)]) /\
  fst (replace_state_dict_prefix [("a.x", 1); ("b.x", 2)] "a." "b.")
  = if String.eqb "a." "b." then Some ValueError else None.
Proof.
  assert (Hnodup : NoDup (keys [("a.x", 1); ("b.x", 2)])) by (cbn; solve_keys).
  split; [exact Hnodup|].
  exact (replace_state_dict_prefix_raises Z [("a.x", 1); ("b.x", 2)] "a." "b." Hnodup).
Defined.

(** X20 at a mapping without a key that starts with "layer.". *)
Lemma replace_state_dict_prefix_no_match_witness :
  "layer." <> "module.layer." /\
  (forall k, In k (keys [("q", 1); ("bias", 2)]) -> startswith k "layer." = false) /\
  replace_state_dict_prefix [("q", 1); ("bias", 2)] "layer." "module.layer."
  = (None, [("q", 1); ("bias", 2)]).
Proof.
  assert (Hdistinct : "layer." <> "module.layer.") by discriminate.
  assert (Hnone : forall k, In k (keys [("q", 1); ("bias", 2)]) ->
                            startswith k "layer." = false).
  { intros k [<-|[<-|[]]]; reflexivity. }
  split; [exact Hdistinct|]. split; [exact Hnone|].
  exact (replace_state_dict_prefix_no_match Z [("q", 1); ("bias", 2)]
           "layer." "module.layer." Hdistinct Hnone).
Defined.

(** X21 at three items, two of them with the prefix "layer.". *)
Lemma replace_state_dict_prefix_order_witness :
  NoDup (keys [("layer.w", 7); ("q", 1); ("layer.b", 8)]) /\
  "layer." <> "m." /\
  no_collision [("layer.w", 7); ("q", 1); ("layer.b", 8)] "layer." "m." /\
  replace_state_dict_prefix [("layer.w", 7); ("q", 1); ("layer.b", 8)] "layer." "m."
  = (None, [("q", 1); ("m.w", 7); ("m.b", 8)]).
Proof.
  assert (Hnodup : NoDup (keys [("layer.w", 7); ("q", 1); ("layer.b", 8)]))
    by (cbn; solve_keys).
  assert (Hdistinct : "layer." <> "m.") by discriminate.
  assert (Hfree : no_collision [("layer.w", 7); ("q", 1); ("layer.b", 8)] "layer." "m.").
  { intros key [<-|[<-|[<-|[]]]] Hs Hin; vm_compute in Hin; solve_keys. }
  split; [exact Hnodup|]. split; [exact Hdistinct|]. split; [exact Hfree|].
  destruct (replace_state_dict_prefix_order Z [("layer.w", 7); ("q", 1); ("layer.b", 8)]
              "layer." "m." Hnodup Hdistinct Hfree) as (d' & Hrun & Hvalue & _).
  rewrite Hrun, Hvalue. reflexivity.
Defined.

(** X22 at the spec's prefixes: "layer." to "module.layer." and back. *)
Lemma replace_state_dict_prefix_roundtrip_witness :
  NoDup (keys [("layer.w", 7); ("q", 1)]) /\
  "layer." <> "module.layer." /\
  (forall k, In k (keys [("layer.w", 7); ("q", 1)]) ->
     startswith k "module.layer." = false) /\
  exists d1 d2,
    replace_state_dict_prefix [("layer.w", 7); ("q", 1)] "layer." "module.layer."
    = (None, d1) /\
    replace_state_dict_prefix d1 "module.layer." "layer." = (None, d2) /\
    d2 = [("q", 1); ("layer.w", 7)] /\
    same_contents d2 [("layer.w", 7); ("q", 1)].
Proof.
  assert (Hnodup : NoDup (keys [("layer.w", 7); ("q", 1)])) by (cbn; solve_keys).
  assert (Hdistinct : "layer." <> "module.layer.") by discriminate.
  assert (Hnew : forall k, In k (keys [("layer.w", 7); ("q", 1)]) ->
                           startswith k "module.layer." = false).
  { intros k [<-|[<-|[]]]; reflexivity. }
  split; [exact Hnodup|]. split; [exact Hdistinct|]. split; [exact Hnew|].
  exact (replace_state_dict_prefix_roundtrip Z [("layer.w", 7); ("q", 1)]
           "layer." "module.layer." Hnodup Hdistinct Hnew).
Defined.

End StateDict.
